(** * solve.py (SECCON 2016 quals, ropsynth): guard recovery and chain stitching

    A shallow embedding of [examples/secconquals2016_ropsynth/solve.py].
    Python 2 byte strings are lists of bytes, the [guard_solutions] dict is
    a finite map from addresses to byte strings, exceptions are the [Raise]
    results of a small error monad, and the analysis engines the script
    drives (CFG recovery, symbolic exploration, chain synthesis) are
    parameters whose answers are plain data. *)

From Stdlib Require Import ZArith String.
From Stdlib.Strings Require Import Byte.
From Stdlib Require Import Sorted.
From stdpp Require Import base gmap strings list.

Local Open Scope Z_scope.

(** ** Python values and exceptions *)

Abbreviation bytes := (list byte).

(** The exceptions the script can raise.  An [AssertionError] carries the
    source line of the failing [assert]; a [KeyError] carries the key. *)
Inductive exn : Type :=
  | AssertionError (lineno : nat)
  | KeyError (key : Z)
  | IndexError
  | TypeError
  | ValueError
  | StopIteration
  | StructError.

Inductive result (A : Type) : Type :=
  | Ok (a : A)
  | Raise (e : exn).
Arguments Ok {A} a.
Arguments Raise {A} e.

#[global] Instance result_ret : MRet result := fun _ a => Ok a.
#[global] Instance result_bind : MBind result := fun _ _ f m =>
  match m with
  | Ok a => f a
  | Raise e => Raise e
  end.

(** [s[:k]] and [s[k:]]: a negative bound counts from the end and both
    bounds are clipped to the string, so a slice never raises. *)
Definition slice_to {A} (s : list A) (k : Z) : list A :=
  if decide (0 ≤ k) then take (Z.to_nat k) s
  else take (length s - Z.to_nat (- k))%nat s.

Definition slice_from {A} (s : list A) (k : Z) : list A :=
  if decide (0 ≤ k) then drop (Z.to_nat k) s
  else drop (length s - Z.to_nat (- k))%nat s.

(** [d[k]] on a dict keyed by addresses. *)
Definition getitem {V} (d : gmap Z V) (k : Z) : result V :=
  match d !! k with
  | Some v => Ok v
  | None => Raise (KeyError k)
  end.

(** ** The objects handed back by the chain synthesizer *)

Record RegMove : Type := { from_reg : string; to_reg : string }.

Record RopGadget : Type := {
  addr : Z;
  stack_change : Z;
  reg_moves : list RegMove
}.

(** A chain: its gadgets in order and the bytes of [payload_str()]. *)
Record RopChain : Type := {
  _gadgets : list RopGadget;
  payload_str : bytes
}.

(** ** postprocess_chain *)

(** One turn of the loop over [chain._gadgets]; the state is the pair
    [(guarded_chain, payload)]. *)
Definition postprocess_gadget (guard_solutions : gmap Z bytes)
    (st : bytes * bytes) (g : RopGadget) : result (bytes * bytes) :=
  let '(guarded_chain, payload) := st in
  let guarded_chain := guarded_chain ++ slice_to payload (stack_change g - 8) in
  let payload := slice_from payload (stack_change g - 8) in
  sol ← getitem guard_solutions (addr g);
  let guarded_chain := guarded_chain ++ sol in
  let guarded_chain := guarded_chain ++ slice_to payload 8 in
  let payload := slice_from payload 8 in
  Ok (guarded_chain, payload).

Fixpoint postprocess_loop (guard_solutions : gmap Z bytes)
    (gs : list RopGadget) (st : bytes * bytes) : result (bytes * bytes) :=
  match gs with
  | [] => Ok st
  | g :: gs' =>
      st' ← postprocess_gadget guard_solutions st g;
      postprocess_loop guard_solutions gs' st'
  end.

Definition postprocess_chain (chain : RopChain)
    (guard_solutions : gmap Z bytes) : result bytes :=
  let payload := payload_str chain in
  let guarded_chain := slice_to payload 8 in
  let payload := slice_from payload 8 in
  st ← postprocess_loop guard_solutions (_gadgets chain) (guarded_chain, payload);
  if decide (length st.2 = 0%nat) then Ok st.1 else Raise (AssertionError 66).

(** The stack budget of a chain and the number of injected bytes. *)
Definition sum_stack_change (gs : list RopGadget) : Z :=
  foldr (fun g acc => stack_change g + acc) 0 gs.

Definition solution_of (guard_solutions : gmap Z bytes) (g : RopGadget) : bytes :=
  default [] (guard_solutions !! addr g).

Definition sum_solutions (guard_solutions : gmap Z bytes) (gs : list RopGadget) : nat :=
  foldr (fun g acc => length (solution_of guard_solutions g) + acc)%nat 0%nat gs.

(** Removing the injected spans, as the stitch invariant words it: keep the
    first address slot, then for every gadget keep its [stack_change - 8]
    consumed bytes, drop the span of its solution, and keep the following
    8-byte address slot. *)
Fixpoint remove_spans (guard_solutions : gmap Z bytes)
    (gs : list RopGadget) (stitched : bytes) : bytes :=
  match gs with
  | [] => stitched
  | g :: gs' =>
      let n := Z.to_nat (stack_change g - 8) in
      let after := drop (length (solution_of guard_solutions g)) (drop n stitched) in
      take n stitched ++ take 8 after ++ remove_spans guard_solutions gs' (drop 8 after)
  end.

Definition unstitch (guard_solutions : gmap Z bytes)
    (gs : list RopGadget) (stitched : bytes) : bytes :=
  take 8 stitched ++ remove_spans guard_solutions gs (drop 8 stitched).

(** The stitched layout as the algorithm words it, on the payload after its
    first address slot: for every gadget its [stack_change - 8] consumed
    bytes, then the guard solution of that gadget, then the following
    8-byte address slot. *)
Fixpoint inject_spans (guard_solutions : gmap Z bytes)
    (gs : list RopGadget) (raw : bytes) : bytes :=
  match gs with
  | [] => raw
  | g :: gs' =>
      let n := Z.to_nat (stack_change g - 8) in
      take n raw ++ solution_of guard_solutions g ++ take 8 (drop n raw)
        ++ inject_spans guard_solutions gs' (drop 8 (drop n raw))
  end.

(** In a stitched payload (after its first address slot) the span that
    follows the consumed bytes of each gadget holds that gadget's guard
    solution, byte for byte. *)
Fixpoint spans_hold_solutions (guard_solutions : gmap Z bytes)
    (gs : list RopGadget) (stitched : bytes) : Prop :=
  match gs with
  | [] => True
  | g :: gs' =>
      let n := Z.to_nat (stack_change g - 8) in
      let sol := solution_of guard_solutions g in
      take (length sol) (drop n stitched) = sol ∧
      spans_hold_solutions guard_solutions gs'
        (drop 8 (drop (length sol) (drop n stitched)))
  end.

(** ** make_elf *)

Fixpoint is_prefix (old s : bytes) : bool :=
  match old, s with
  | [], _ => true
  | _ :: _, [] => false
  | o :: old', c :: s' => Byte.eqb o c && is_prefix old' s'
  end.

(** [str.replace] scans left to right and never rescans what it has
    written; [skip] counts the bytes of a match still to be passed over. *)
Fixpoint replace_from (old new : bytes) (skip : nat) (s : bytes) : bytes :=
  match s with
  | [] => []
  | c :: s' =>
      match skip with
      | S k => replace_from old new k s'
      | O =>
          if is_prefix old s
          then new ++ replace_from old new (length old - 1) s'
          else c :: replace_from old new 0 s'
      end
  end.

(** [s.replace(old, new)]; an empty [old] matches before every byte and
    at the end. *)
Definition replace (old new s : bytes) : bytes :=
  match old with
  | [] => new ++ flat_map (fun c => c :: new) s
  | _ :: _ => replace_from old new 0 s
  end.

(** [s.ljust(width, fill)] *)
Definition ljust (s : bytes) (width : nat) (fill : byte) : bytes :=
  s ++ replicate (width - length s) fill.

(** [reversed(range(2, 20))] *)
Definition halt_run_lengths : list nat := rev (seq 2 18).

Definition replace_halt_run (the_bytes : bytes) (i : nat) : bytes :=
  replace (replicate i xf4) (replicate i xcc) the_bytes.

(** The value of [the_bytes] after the substitutions, before padding. *)
Definition substitute_halts (decoded : bytes) : bytes :=
  let the_bytes := foldl replace_halt_run decoded halt_run_lengths in
  replace [xc3; xf4] [xc3; xcc] the_bytes.

(** The value of [the_bytes] that is embedded into the template. *)
Definition sanitize (decoded : bytes) : bytes :=
  ljust (substitute_halts decoded) 4096 xcc.

(** [make_elf] on the decoded gadget bytes and the contents of [nop.elf];
    the result is what is written to [gadgets.elf]. *)
Definition make_elf (decoded the_nops : bytes) : bytes :=
  replace (replicate 4096 x90) (sanitize decoded) the_nops.

(** *** Reading the substitutions run by run *)

Definition starts_with (b : byte) (s : bytes) : bool :=
  match s with
  | [] => false
  | c :: _ => Byte.eqb c b
  end.

Definition ends_with (b : byte) (s : bytes) : bool :=
  match last s with
  | None => false
  | Some c => Byte.eqb c b
  end.

(** What a maximal run of [n] halt bytes becomes: all trap bytes, except
    that a run of length 19q+1 keeps its last halt byte, unless the run is a
    single halt byte that follows a return byte. *)
Definition run_image (after_ret : bool) (n : nat) : bytes :=
  if (n mod 19 =? 1)%nat
  then replicate (n - 1) xcc ++ [if after_ret && (n =? 1)%nat then xcc else xf4]
  else replicate n xcc.

(** The last substitution read byte by byte: a halt byte becomes a trap byte
    when the byte before it is a return byte. *)
Fixpoint after_ret_pass (prev_ret : bool) (s : bytes) : bytes :=
  match s with
  | [] => []
  | c :: s' =>
      (if prev_ret && Byte.eqb c xf4 then xcc else c)
        :: after_ret_pass (Byte.eqb c xc3) s'
  end.

(** A byte is kept, or it is a halt byte turned into a trap byte. *)
Definition halt_to_trap (x y : byte) : Prop := y = x ∨ (x = xf4 ∧ y = xcc).

(** ** What the symbolic execution engine reports *)

(** Leaves of a claripy expression: a concrete value or a named symbol. *)
Inductive AST : Type :=
  | BVV (value : Z)
  | BVS (name : string).

Definition symbolic (a : AST) : bool :=
  match a with BVV _ => false | BVS _ => true end.

Definition variables (a : AST) : gset string :=
  match a with BVV _ => ∅ | BVS n => {[ n ]} end.

(** A branch condition recorded on a path. *)
Record Guard : Type := {
  guard_symbolic : bool;
  recursive_leaf_asts : list AST
}.

(** A recorded action: [type], [action], [ins_addr] and the variables of
    [data]. *)
Record SimAction : Type := {
  type : string;
  action : string;
  ins_addr : Z;
  data_variables : gset string
}.

(** An unconstrained path: its guards, its actions, and the answer of its
    solver for the concatenation of a list of leaves. *)
Record Path : Type := {
  guards : list Guard;
  actions : list SimAction;
  any_str : list AST → bytes
}.

(** A function of the recovered CFG. *)
Record Function : Type := {
  func_addr : Z;
  blocks : list Z
}.

(** ** Guard recovery *)

(** The generator handed to [sorted]: the first symbolic leaf of every
    symbolic guard.  A guard without one makes the inner [next] raise
    [StopIteration], which in Python 2 ends the enclosing generator. *)
Fixpoint guard_leaves (gds : list Guard) : list AST :=
  match gds with
  | [] => []
  | gd :: gds' =>
      if guard_symbolic gd then
        match find (fun a => symbolic a) (recursive_leaf_asts gd) with
        | Some a => a :: guard_leaves gds'
        | None => []
        end
      else guard_leaves gds'
  end.

(** [next(iter(v.variables))] *)
Definition sort_key (v : AST) : result string :=
  match v with
  | BVS n => Ok n
  | BVV _ => Raise StopIteration
  end.

Fixpoint decorate (vs : list AST) : result (list (string * AST)) :=
  match vs with
  | [] => Ok []
  | v :: vs' =>
      k ← sort_key v;
      rest ← decorate vs';
      Ok ((k, v) :: rest)
  end.

Fixpoint insert_by_key (kv : string * AST) (l : list (string * AST))
    : list (string * AST) :=
  match l with
  | [] => [kv]
  | kv' :: l' =>
      if String.leb kv.1 kv'.1 then kv :: l else kv' :: insert_by_key kv l'
  end.

(** [sorted(vs, key=...)]: a stable sort on the keys. *)
Definition sorted_by_key (vs : list AST) : result (list AST) :=
  kvs ← decorate vs;
  Ok (snd <$> foldr insert_by_key [] kvs).

Definition symbolic_guard_guys (good_path : Path) : result (list AST) :=
  sorted_by_key (guard_leaves (guards good_path)).

(** [frozenset.union] applied to the unpacked list of sets: it needs at
    least one argument. *)
Definition frozenset_union (sets : list (gset string)) : result (gset string) :=
  match sets with
  | [] => Raise TypeError
  | s :: rest => Ok (foldl (∪) s rest)
  end.

(** [action.type == 'mem' and action.action == 'read'] *)
Definition is_mem_read (a : SimAction) : bool :=
  String.eqb (type a) "mem" && String.eqb (action a) "read".

(** The filter of the generator handed to [min]. *)
Definition reads_guard_input (guys : list AST) (a : SimAction) : result bool :=
  if is_mem_read a then
    u ← frozenset_union (variables <$> guys);
    Ok (bool_decide (data_variables a ∩ u ≠ ∅))
  else Ok false.

Fixpoint check_addrs (guys : list AST) (acts : list SimAction) : result (list Z) :=
  match acts with
  | [] => Ok []
  | a :: acts' =>
      b ← reads_guard_input guys a;
      rest ← check_addrs guys acts';
      Ok (if b : bool then ins_addr a :: rest else rest)
  end.

Definition py_min (l : list Z) : result Z :=
  match l with
  | [] => Raise ValueError
  | x :: l' => Ok (foldl Z.min x l')
  end.

Definition start_of_checks (guys : list AST) (acts : list SimAction) : result Z :=
  l ← check_addrs guys acts;
  py_min l.

(** [for a in range(lo, hi): guard_solutions[a] = sol] *)
Definition record_solutions (guard_solutions : gmap Z bytes)
    (lo hi : Z) (sol : bytes) : gmap Z bytes :=
  foldl (fun d a => <[a := sol]> d) guard_solutions (seqZ lo (hi - lo)).

(** Modelled from the spec: the loader's [memory.write_bytes], which is not
    part of the script.  The image is a finite map from addresses to bytes
    and writing overwrites the bytes at [a], [a+1], ... with those of
    [data]. *)
Fixpoint write_bytes (memory : gmap Z byte) (a : Z) (data : bytes) : gmap Z byte :=
  match data with
  | [] => memory
  | c :: data' => write_bytes (<[a := c]> memory) (a + 1) data'
  end.

(** The neutralizing write of the loop body; clearing the engine's cache
    leaves the image as it is. *)
Definition neutralize (memory : gmap Z byte) (start : Z) : gmap Z byte :=
  write_bytes memory start [xc3].

(** [l[0]] *)
Definition first_item {A} (l : list A) : result A :=
  match l with
  | [] => Raise IndexError
  | x :: _ => Ok x
  end.

Section Recovery.

(** [explore memory entry]: the list [pg.unconstrained] after exploring
    from [entry] over the image [memory]. *)
Variable explore : gmap Z byte → Z → list Path.

(** The analysis part of the loop body: the good path, the sorted guard
    variables and the address where the checks start. *)
Definition guard_conditions (memory : gmap Z byte) (f : Function)
    : result (Path * list AST * Z) :=
  good_path ← first_item (explore memory (func_addr f));
  guys ← symbolic_guard_guys good_path;
  start ← start_of_checks guys (actions good_path);
  Ok (good_path, guys, start).

(** The body of the loop over [cfg.functions.values()]; the state is
    [guard_solutions] and the image. *)
Definition recover_function (st : gmap Z bytes * gmap Z byte) (f : Function)
    : result (gmap Z bytes * gmap Z byte) :=
  let '(guard_solutions, memory) := st in
  if decide (length (blocks f) ≤ 1)%nat then Ok st
  else
    '(good_path, guys, start) ← guard_conditions memory f;
    let guard_solutions :=
      record_solutions guard_solutions (func_addr f) start (any_str good_path guys) in
    Ok (guard_solutions, neutralize memory start).

Fixpoint recover_guards (fs : list Function) (st : gmap Z bytes * gmap Z byte)
    : result (gmap Z bytes * gmap Z byte) :=
  match fs with
  | [] => Ok st
  | f :: fs' =>
      st' ← recover_function st f;
      recover_guards fs' st'
  end.

End Recovery.

(** ** The round: validation, stitching and the move chain *)

(** The list built inside the sanity [assert]: the addresses of the chain's
    gadgets that have no guard solution. *)
Definition unrecognized (guard_solutions : gmap Z bytes) (chain : RopChain) : list Z :=
  addr <$> filter (fun g => guard_solutions !! addr g = None) (_gadgets chain).

Fixpoint validate_chains (guard_solutions : gmap Z bytes)
    (chains : list RopChain) : result unit :=
  match chains with
  | [] => Ok tt
  | chain :: chains' =>
      match unrecognized guard_solutions chain with
      | [] => validate_chains guard_solutions chains'
      | _ :: _ => Raise (AssertionError 163)
      end
  end.

(** [[ postprocess_chain(chain, guard_solutions) for chain in chains ]] *)
Fixpoint postprocess_chains (guard_solutions : gmap Z bytes)
    (chains : list RopChain) : result (list bytes) :=
  match chains with
  | [] => Ok []
  | chain :: chains' =>
      guarded ← postprocess_chain chain guard_solutions;
      rest ← postprocess_chains guard_solutions chains';
      Ok (guarded :: rest)
  end.

(** The test of the generator that looks for the [mov rdx, rax] gadget:
    only the first recorded register move is inspected. *)
Definition moves_rax_to_rdx (g : RopGadget) : bool :=
  match reg_moves g with
  | [] => false
  | m :: _ => String.eqb (from_reg m) "rax" && String.eqb (to_reg m) "rdx"
  end.

(** [next(g for g in gadgets if ...)] *)
Definition next_mov_gadget (gadgets : list RopGadget) : result RopGadget :=
  match find moves_rax_to_rdx gadgets with
  | Some g => Ok g
  | None => Raise StopIteration
  end.

Definition byte_of_Z (z : Z) : byte :=
  default x00 (Byte.of_N (Z.to_N (z mod 256))).

Fixpoint le_bytes (n : nat) (v : Z) : bytes :=
  match n with
  | O => []
  | S n' => byte_of_Z v :: le_bytes n' (v / 256)
  end.

(** The value of a byte string read as a little-endian number. *)
Definition le_value (bs : bytes) : Z :=
  foldr (fun b acc => Z.of_N (Byte.to_N b) + 256 * acc) 0 bs.

(** [struct.pack("<Q", v)] *)
Definition pack_Q (v : Z) : result bytes :=
  if decide (0 ≤ v < 2 ^ 64) then Ok (le_bytes 8 v) else Raise StructError.

(** [l.insert(i, x)] for a non-negative [i]. *)
Definition list_insert_at {A} (i : nat) (x : A) (l : list A) : list A :=
  take i l ++ x :: drop i l.

(** [get_gadgets] from the sanity check on: [chains] are the synthesized
    chains and [gadgets] is [r.gadgets]. *)
Definition assemble (guard_solutions : gmap Z bytes)
    (chains : list RopChain) (gadgets : list RopGadget) : result bytes :=
  _ ← validate_chains guard_solutions chains;
  guarded_chains ← postprocess_chains guard_solutions chains;
  mov_gadget ← next_mov_gadget gadgets;
  packed ← pack_Q (addr mov_gadget);
  sol ← getitem guard_solutions (addr mov_gadget);
  let mov_chain := packed ++ sol in
  let guarded_chains := list_insert_at 2 mov_chain guarded_chains in
  Ok (concat guarded_chains).

Section Round.

Variable explore : gmap Z byte → Z → list Path.
(** [cfg.functions.values()] and the image of the loaded [gadgets.elf]. *)
Variable functions : list Function.
Variable memory : gmap Z byte.
(** [r.gadgets] after [find_gadgets()] and [r.do_syscall(num, args)], both
    over the patched image. *)
Variable find_gadgets : gmap Z byte → list RopGadget.
Variable do_syscall : gmap Z byte → Z → list Z → result RopChain.

Definition get_gadgets : result bytes :=
  st ← recover_guards explore functions (∅, memory);
  let r := st.2 in
  c_open ← do_syscall r 2 [10485760; 0; 0];
  c_read ← do_syscall r 0 [3; 10485760; 1024];
  c_write ← do_syscall r 1 [1; 10485760];
  assemble st.1 [c_open; c_read; c_write] (find_gadgets r).

End Round.


(** ** Concrete chains, paths and functions used as test inputs *)

Definition ex_mov : RegMove := {| from_reg := "rax"; to_reg := "rdx" |}.

Definition ex_pop_gadget : RopGadget :=
  {| addr := 4096; stack_change := 16; reg_moves := [] |}.
Definition ex_mov_gadget : RopGadget :=
  {| addr := 4112; stack_change := 8; reg_moves := [ex_mov] |}.
Definition ex_syscall_gadget : RopGadget :=
  {| addr := 4128; stack_change := 8; reg_moves := [] |}.
Definition ex_unknown_gadget : RopGadget :=
  {| addr := 4144; stack_change := 8; reg_moves := [] |}.
Definition ex_unknown_mov_gadget : RopGadget :=
  {| addr := 4160; stack_change := 8; reg_moves := [ex_mov] |}.

Definition ex_solutions : gmap Z bytes :=
  <[4096 := [x11; x22]]> (<[4112 := [x33]]> (<[4128 := []]> ∅)).

Definition ex_payload (n : Z) : bytes := byte_of_Z <$> seqZ 0 n.

Definition ex_chain : RopChain :=
  {| _gadgets := [ex_pop_gadget; ex_syscall_gadget]; payload_str := ex_payload 32 |}.
Definition ex_long_chain : RopChain :=
  {| _gadgets := [ex_pop_gadget; ex_syscall_gadget]; payload_str := ex_payload 40 |}.
Definition ex_short_chain : RopChain :=
  {| _gadgets := [ex_pop_gadget]; payload_str := ex_payload 10 |}.
Definition ex_orphan_chain : RopChain :=
  {| _gadgets := [ex_pop_gadget; ex_unknown_gadget]; payload_str := ex_payload 32 |}.

Definition ex_guard (name : string) : Guard :=
  {| guard_symbolic := true; recursive_leaf_asts := [BVV 5; BVS name] |}.
Definition ex_concrete_guard : Guard :=
  {| guard_symbolic := false; recursive_leaf_asts := [BVV 1] |}.

Definition ex_read (a : Z) (name : string) : SimAction :=
  {| type := "mem"; action := "read"; ins_addr := a; data_variables := {[ name ]} |}.
Definition ex_reg_write (a : Z) : SimAction :=
  {| type := "reg"; action := "write"; ins_addr := a; data_variables := ∅ |}.

Definition ex_any_str (guys : list AST) : bytes :=
  replicate (8 * length guys) x41.

(** A path with two symbolic guards whose first checked read is at [a]. *)
Definition ex_path (a : Z) : Path :=
  {| guards := [ex_guard "w1"; ex_concrete_guard; ex_guard "w0"];
     actions := [ex_reg_write 4096; ex_read (a + 4) "w1"; ex_read a "w0"];
     any_str := ex_any_str |}.

(** A path without symbolic guards. *)
Definition ex_unguarded_path : Path :=
  {| guards := [ex_concrete_guard];
     actions := [ex_reg_write 4096; ex_read 4100 "w0"];
     any_str := ex_any_str |}.

Definition ex_function : Function := {| func_addr := 4096; blocks := [4096; 4104] |}.
Definition ex_trivial_function : Function := {| func_addr := 4200; blocks := [4200] |}.

Definition ex_explore (p : Path) : gmap Z byte → Z → list Path := fun _ _ => [p].

Definition ex_memory : gmap Z byte := <[4099 := xf4]> (<[4100 := x48]> ∅).

Definition ex_do_syscall (c : RopChain) : gmap Z byte → Z → list Z → result RopChain :=
  fun _ _ _ => Ok c.

Definition ex_find_gadgets (gadgets : list RopGadget) : gmap Z byte → list RopGadget :=
  fun _ => gadgets.

(** The state after recovering the guards of [ex_function] over
    [ex_path 4100]. *)
Definition ex_state : gmap Z bytes * gmap Z byte :=
  (record_solutions ∅ 4096 4100 (replicate 16 x41), neutralize ex_memory 4100).

(** A round over [ex_state]: one chain with the gadget at 4096 and a move
    gadget at 4097, both before the boundary 4100. *)
Definition ex_round_mov_gadget : RopGadget :=
  {| addr := 4097; stack_change := 8; reg_moves := [ex_mov] |}.
Definition ex_round_chain : RopChain :=
  {| _gadgets := [ex_pop_gadget]; payload_str := ex_payload 24 |}.
Definition ex_round_stitched : bytes :=
  take 16 (ex_payload 24) ++ replicate 16 x41 ++ drop 16 (ex_payload 24).

Definition ex_decoded : bytes :=
  [x90; xc3; xf4; x48; xf4; xf4; xf4; x00; xf4; x5f; xc3].

(** ** Shapes of byte strings used to state what [make_elf] guarantees *)

(** No halt byte directly after a halt byte; [prev_halt] tells whether the
    byte before [s] is a halt byte. *)
Fixpoint no_halt_pair (prev_halt : bool) (s : bytes) : bool :=
  match s with
  | [] => true
  | c :: s' => negb (prev_halt && Byte.eqb c xf4) && no_halt_pair (Byte.eqb c xf4) s'
  end.

(** No halt byte directly after a halt byte or a return byte; [prev_bad]
    tells whether the byte before [s] is one of the two. *)
Fixpoint no_halt_after (prev_bad : bool) (s : bytes) : bool :=
  match s with
  | [] => true
  | c :: s' =>
      negb (prev_bad && Byte.eqb c xf4)
      && no_halt_after (Byte.eqb c xf4 || Byte.eqb c xc3) s'
  end.

(** [old in s] *)
Definition occurs_in (old s : bytes) : Prop := ∃ pre post, s = pre ++ old ++ post.

Definition ex_plain_chain : RopChain :=
  {| _gadgets := [ex_syscall_gadget]; payload_str := ex_payload 16 |}.

Definition ex_template : bytes :=
  [x7f; x45; x4c; x46] ++ replicate 4096 x90 ++ [xc3; x90].

(** ** Relations used to state what guard recovery guarantees *)

(** Two symbolic leaves in the order of their names. *)
Definition name_le (a b : AST) : Prop :=
  match a, b with
  | BVS n, BVS m => String.leb n m = true
  | _, _ => False
  end.

(** A memory read whose data shares a variable with one of the guard
    variables. *)
Definition touches (guys : list AST) (act : SimAction) : Prop :=
  is_mem_read act = true ∧
  ∃ g v, g ∈ guys ∧ v ∈ variables g ∧ v ∈ data_variables act.

(** ** test: the exchange with the challenge process *)

(** The pipes to the process are streams of bytes: [out] is what the
    process still has to say on its stdout, [written] what has been written
    to its stdin so far, one entry per [write].  [r.stdout.read(n)] takes up
    to [n] bytes off the stream.  What the script prints and its sleeping
    are left out. *)

(** [c.isspace()] on a byte of a [str] *)
Definition is_space (c : byte) : bool :=
  match c with
  | x09 | x0a | x0b | x0c | x0d | x20 => true
  | _ => false
  end.

Fixpoint lstrip (s : bytes) : bytes :=
  match s with
  | [] => []
  | c :: s' => if is_space c then lstrip s' else s
  end.

Definition rstrip (s : bytes) : bytes := rev (lstrip (rev s)).

(** [s.strip()] *)
Definition strip (s : bytes) : bytes := rstrip (lstrip s).

(** [a == b] on byte strings *)
Fixpoint bytes_eqb (a b : bytes) : bool :=
  match a, b with
  | [], [] => true
  | x :: a', y :: b' => Byte.eqb x y && bytes_eqb a' b'
  | _, _ => false
  end.

(** The loop that reads one byte at a time until what was read ends with a
    newline: the line, newline included, and the rest of the stream.  At
    the end of the stream [read(1)] keeps returning the empty string and
    the loop never ends: [None]. *)
Fixpoint read_line (out : bytes) : option (bytes * bytes) :=
  match out with
  | [] => None
  | c :: out' =>
      if Byte.eqb c x0a then Some ([c], out')
      else
        match read_line out' with
        | Some (line, rest) => Some (c :: line, rest)
        | None => None
        end
  end.

(** Where a run stands after a round: it goes on, it stopped with an
    exception, or it is stuck reading. *)
Inductive step : Type :=
  | Next (out : bytes) (written : list bytes)
  | Stop (written : list bytes) (e : exn)
  | Hang (written : list bytes).

Section Test.

(** [base64.b64decode] and [base64.b64encode], the contents of [nop.elf],
    and what the loader makes of the contents of [gadgets.elf]. *)
Variable b64decode : bytes → result bytes.
Variable b64encode : bytes → bytes.
Variable the_nops : bytes.
Variable load_functions : bytes → list Function.
Variable load_memory : bytes → gmap Z byte.
Variable explore : gmap Z byte → Z → list Path.
Variable find_gadgets : gmap Z byte → list RopGadget.
Variable do_syscall : gmap Z byte → Z → list Z → result RopChain.

(** [make_elf(gadgets)] followed by [get_gadgets()], which loads the file
    the former wrote. *)
Definition solve_round (gadgets : bytes) : result bytes :=
  decoded ← b64decode gadgets;
  let elf := make_elf decoded the_nops in
  get_gadgets explore (load_functions elf) (load_memory elf) find_gadgets do_syscall.

(** The body of the loop over the five rounds. *)
Definition round (out : bytes) (written : list bytes) : step :=
  let out := drop 6 out in
  let out := drop 1 out in
  let out := drop 3 out in
  match read_line out with
  | None => Hang written
  | Some (gadgets, out) =>
      let gadgets := strip gadgets in
      match solve_round gadgets with
      | Raise e => Stop written e
      | Ok chain =>
          let written := written ++ [b64encode chain ++ [x0a]] in
          let status := strip (take 3 out) in
          let out := drop 3 out in
          if bytes_eqb status [x4f; x4b] then Next out written
          else Stop written (AssertionError 210)
      end
  end.

Fixpoint rounds (n : nat) (out : bytes) (written : list bytes) : step :=
  match n with
  | O => Next out written
  | S n' =>
      match round out written with
      | Next out' written' => rounds n' out' written'
      | s => s
      end
  end.

Definition test (out : bytes) : step :=
  match rounds 5 out [] with
  | Next out written =>
      let flag := strip (take 128 out) in
      if bytes_eqb flag (list_byte_of_string "SECCON{HAHAHHAHAHAAHA}")
      then Next (drop 128 out) written
      else Stop written (AssertionError 215)
  | s => s
  end.

End Test.

(** What has been written to the process when a run stands at [s]. *)
Definition written_of (s : step) : list bytes :=
  match s with
  | Next _ written => written
  | Stop written _ => written
  | Hang written => written
  end.

Definition ex_b64decode : bytes → result bytes := fun _ => Ok ex_decoded.
Definition ex_b64encode : bytes → bytes := fun chain => chain.
Definition ex_load_functions : bytes → list Function := fun _ => [ex_function].
Definition ex_load_memory : bytes → gmap Z byte := fun _ => ex_memory.

(** * Properties *)

#[local] Arguments Byte.eqb : simpl never.

(** ** The error monad *)

Lemma bind_Ok {A B} (a : A) (f : A → result B) : Ok a ≫= f = f a.
Proof. reflexivity. Qed.

Lemma bind_Ok_inv {A B} (m : result A) (f : A → result B) b :
  m ≫= f = Ok b → ∃ a, m = Ok a ∧ f a = Ok b.
Proof. destruct m as [a|e]; [|done]. intros H. by exists a. Qed.


(** ** make_elf: the substitutions *)

Lemma byte_eqb_eq x y : Byte.eqb x y = true ↔ x = y.
Proof. split; [apply Byte.byte_dec_bl|apply Byte.byte_dec_lb]. Qed.

Lemma byte_eqb_neq x y : Byte.eqb x y = false ↔ x ≠ y.
Proof.
  split; [apply Byte.eqb_false|]. intros H.
  destruct (Byte.eqb x y) eqn:E; [|done]. by apply byte_eqb_eq in E.
Qed.

Lemma is_prefix_spec old : ∀ s, is_prefix old s = true ↔ ∃ rest, s = old ++ rest.
Proof.
  induction old as [|o old IH]; intros s.
  - split; [by exists s|done].
  - destruct s as [|c s]; cbn [is_prefix].
    + split; [done|]. by intros [rest H].
    + rewrite andb_true_iff, byte_eqb_eq, IH. split.
      * intros [-> [rest ->]]. by exists rest.
      * intros [rest [= -> ->]]. split; [done|by exists rest].
Qed.

Lemma is_prefix_length old s : is_prefix old s = true → (length old ≤ length s)%nat.
Proof.
  intros [rest ->]%is_prefix_spec. rewrite length_app. lia.
Qed.

Lemma replace_from_skip old new s : ∀ k,
  replace_from old new k s = replace_from old new 0 (drop k s).
Proof.
  induction s as [|c s IH]; intros k.
  - by destruct k.
  - destruct k as [|k]; [done|]. cbn [replace_from drop]. apply IH.
Qed.

(** One scanning step of [replace] for a pattern that is not empty. *)
Lemma replace_cons o old new c s :
  replace (o :: old) new (c :: s) =
    if is_prefix (o :: old) (c :: s)
    then new ++ replace (o :: old) new (drop (length old) s)
    else c :: replace (o :: old) new s.
Proof.
  unfold replace. cbn [replace_from].
  destruct (is_prefix (o :: old) (c :: s)); [|done].
  cbn [length]. rewrite Nat.sub_succ, Nat.sub_0_r. by rewrite replace_from_skip.
Qed.

Lemma replace_nil o old new : replace (o :: old) new [] = [].
Proof. done. Qed.

(** *** Every substitution only turns halt bytes into trap bytes *)

Lemma halt_to_trap_refl l : Forall2 halt_to_trap l l.
Proof. induction l; constructor; [by left|done]. Qed.

Lemma halt_to_trap_trans l1 l2 l3 :
  Forall2 halt_to_trap l1 l2 → Forall2 halt_to_trap l2 l3 → Forall2 halt_to_trap l1 l3.
Proof.
  intros H12. revert l3. induction H12 as [|x y l1 l2 Hxy _ IH]; intros l3 H23.
  - by inversion H23.
  - inversion H23 as [|y' z l2' l3' Hyz Hrest]; subst. constructor; [|by apply IH].
    destruct Hxy as [->|[-> ->]]; [done|].
    destruct Hyz as [->|[Hf _]]; [by right|discriminate].
Qed.

Lemma halt_to_trap_replicate n :
  Forall2 halt_to_trap (replicate n xf4) (replicate n xcc).
Proof. induction n; constructor; [by right|done]. Qed.

Lemma replace_halt_run_rel i : ∀ s,
  Forall2 halt_to_trap s (replace_halt_run s (S i)).
Proof.
  intros s. unfold replace_halt_run. cbn [replicate].
  remember (length s) as n eqn:Hn. revert s Hn.
  induction n as [n IH] using lt_wf_ind. intros s Hn.
  destruct s as [|c s]; [constructor|].
  rewrite replace_cons.
  destruct (is_prefix (xf4 :: replicate i xf4) (c :: s)) eqn:Hp.
  - apply is_prefix_spec in Hp as [rest Hp]. injection Hp as -> ->.
    rewrite length_replicate, drop_app_length' by (by rewrite length_replicate).
    change (xcc :: replicate i xcc ++ ?r) with (replicate (S i) xcc ++ r).
    change (xf4 :: replicate i xf4 ++ ?r) with (replicate (S i) xf4 ++ r).
    apply Forall2_app; [apply halt_to_trap_replicate|].
    eapply IH; [|done]. subst n. cbn. rewrite length_app. lia.
  - constructor; [by left|]. eapply IH; [|done]. subst n. cbn. lia.
Qed.

Lemma after_ret_pass_rel s : ∀ b, Forall2 halt_to_trap s (after_ret_pass b s).
Proof.
  induction s as [|c s IH]; intros b; cbn; constructor; [|done].
  destruct (b && Byte.eqb c xf4) eqn:E; [|by left].
  apply andb_true_iff in E as [_ E%byte_eqb_eq]. by right.
Qed.

(** *** The last substitution, byte by byte *)

Lemma after_ret_pass_no_halt s :
  starts_with xf4 s = false → after_ret_pass true s = after_ret_pass false s.
Proof. destruct s as [|c s]; [done|]. cbn. by intros ->. Qed.

Lemma replace_ret_halt s :
  replace [xc3; xf4] [xc3; xcc] s = after_ret_pass false s.
Proof.
  remember (length s) as n eqn:Hn. revert s Hn.
  induction n as [n IH] using lt_wf_ind. intros s Hn.
  destruct s as [|c s]; [done|].
  rewrite replace_cons.
  destruct (is_prefix [xc3; xf4] (c :: s)) eqn:Hp.
  - apply is_prefix_spec in Hp as [rest Hp]. injection Hp as -> ->.
    cbn. f_equal. f_equal. eapply IH; [|done]. subst n. cbn. lia.
  - cbn [after_ret_pass]. cbn [andb]. f_equal.
    rewrite (IH (length s)); [|subst n; cbn; lia|done].
    destruct (Byte.eqb c xc3) eqn:Ec; [|done].
    apply byte_eqb_eq in Ec as ->. symmetry. apply after_ret_pass_no_halt.
    destruct s as [|d s]; [done|]. cbn [starts_with].
    destruct (Byte.eqb d xf4) eqn:Ed; [|done].
    apply byte_eqb_eq in Ed as ->. cbn in Hp. discriminate.
Qed.

Lemma after_ret_pass_app s1 : ∀ b s2,
  after_ret_pass b (s1 ++ s2) =
    after_ret_pass b s1 ++
    after_ret_pass (match last s1 with Some c => Byte.eqb c xc3 | None => b end) s2.
Proof.
  induction s1 as [|c s1 IH]; intros b s2; [done|].
  cbn [app after_ret_pass]. rewrite IH. f_equal. f_equal.
  destruct s1 as [|d s1]; [done|]. rewrite last_cons_cons.
  destruct (last (d :: s1)) eqn:E; [done|]. by apply last_None in E.
Qed.

Lemma after_ret_pass_traps n : ∀ b, after_ret_pass b (replicate n xcc) = replicate n xcc.
Proof.
  induction n as [|n IH]; intros b; [done|]. cbn. rewrite IH.
  by rewrite andb_false_r.
Qed.

Lemma after_ret_pass_length s : ∀ b, length (after_ret_pass b s) = length s.
Proof. induction s as [|c s IH]; intros b; [done|]. cbn. by rewrite IH. Qed.


(** *** A halt-run substitution works run by run *)

Lemma is_prefix_halts_app i : ∀ A c B,
  c ≠ xf4 →
  is_prefix (replicate (S i) xf4) (A ++ c :: B) = is_prefix (replicate (S i) xf4) A.
Proof.
  induction i as [|i IH]; intros A c B Hc.
  - destruct A as [|a A]; cbn.
    + rewrite andb_true_r. apply byte_eqb_neq. congruence.
    + done.
  - destruct A as [|a A].
    + cbn. apply andb_false_iff. left. apply byte_eqb_neq. congruence.
    + change (replicate (S (S i)) xf4) with (xf4 :: replicate (S i) xf4).
      cbn [app is_prefix]. by rewrite IH.
Qed.

Lemma replace_halt_run_nil i : replace_halt_run [] (S i) = [].
Proof. done. Qed.

Lemma replace_halt_run_split i A c B :
  c ≠ xf4 →
  replace_halt_run (A ++ c :: B) (S i) =
    replace_halt_run A (S i) ++ c :: replace_halt_run B (S i).
Proof.
  intros Hc. remember (length A) as n eqn:Hn. revert A Hn.
  induction n as [n IH] using lt_wf_ind. intros A Hn.
  unfold replace_halt_run in *. cbn [replicate] in *.
  destruct A as [|a A].
  - cbn [app]. rewrite replace_cons.
    assert (is_prefix (xf4 :: replicate i xf4) (c :: B) = false) as ->; [|done].
    cbn. apply andb_false_iff. left. apply byte_eqb_neq. congruence.
  - cbn [app]. rewrite !replace_cons.
    change (xf4 :: replicate i xf4) with (replicate (S i) xf4).
    change (a :: A ++ c :: B) with ((a :: A) ++ c :: B).
    rewrite is_prefix_halts_app by done.
    destruct (is_prefix (replicate (S i) xf4) (a :: A)) eqn:Hp.
    + pose proof (is_prefix_length _ _ Hp) as Hlen.
      rewrite length_replicate in Hlen |- *. cbn in Hlen.
      rewrite drop_app_le by lia. cbn [replicate].
      rewrite (IH (length (drop i A))); [| |done].
      * by rewrite <- app_assoc.
      * subst n. rewrite length_drop. cbn. lia.
    + cbn [replicate]. rewrite (IH (length A)); [done| |done]. subst n. cbn. lia.
Qed.

Lemma halts_longer_prefix n : ∀ k rest rest',
  replicate n xf4 ++ rest = replicate k xf4 ++ rest' → (n < k)%nat →
  starts_with xf4 rest = true.
Proof.
  induction n as [|n IH]; intros k rest rest' H Hlt.
  - destruct k as [|k]; [lia|]. cbn in H. by subst rest.
  - destruct k as [|k]; [lia|]. cbn in H. injection H as H.
    eapply IH; [done|lia].
Qed.

Lemma replace_halt_run_short i n rest :
  (n < S i)%nat → starts_with xf4 rest = false →
  replace_halt_run (replicate n xf4 ++ rest) (S i) =
    replicate n xf4 ++ replace_halt_run rest (S i).
Proof.
  intros Hn Hrest. induction n as [|n IH]; [done|].
  unfold replace_halt_run in *. cbn [replicate app] in *.
  rewrite replace_cons.
  assert (is_prefix (xf4 :: replicate i xf4) (xf4 :: replicate n xf4 ++ rest) = false)
    as ->.
  { destruct (is_prefix _ _) eqn:Hp; [|done].
    apply is_prefix_spec in Hp as [rest' Hp].
    rewrite (halts_longer_prefix (S n) (S i) rest rest' Hp) in Hrest; [done|lia]. }
  f_equal. apply IH. lia.
Qed.

Lemma replace_halt_run_run i q : ∀ r rest,
  (r < S i)%nat → starts_with xf4 rest = false →
  replace_halt_run (replicate (S i * q + r) xf4 ++ rest) (S i) =
    replicate (S i * q) xcc ++ replicate r xf4 ++ replace_halt_run rest (S i).
Proof.
  induction q as [|q IH]; intros r rest Hr Hrest.
  - rewrite Nat.mul_0_r. cbn [Nat.add replicate app]. by apply replace_halt_run_short.
  - replace (S i * S q + r)%nat with (S i + (S i * q + r))%nat by lia.
    replace (S i * S q)%nat with (S i + S i * q)%nat by lia.
    rewrite (replicate_add (S i) (S i * q + r)), (replicate_add (S i) (S i * q)).
    rewrite <- !app_assoc.
    specialize (IH r rest Hr Hrest).
    unfold replace_halt_run in *.
    cbn [replicate app] in *. rewrite replace_cons.
    assert (is_prefix (xf4 :: replicate i xf4)
              (xf4 :: replicate i xf4 ++ replicate (S i * q + r) xf4 ++ rest) = true)
      as ->.
    { apply is_prefix_spec. by eexists. }
    rewrite length_replicate, drop_app_length' by (by rewrite length_replicate).
    by rewrite IH.
Qed.

(** *** The loop over the run lengths *)

Lemma halt_loop_nil L :
  Forall (fun i => i ≠ 0%nat) L → foldl replace_halt_run [] L = [].
Proof.
  induction 1 as [|i L Hi _ IH]; [done|]. destruct i as [|i]; [done|].
  cbn [foldl]. by rewrite replace_halt_run_nil.
Qed.

Lemma halt_loop_split L : ∀ A c B,
  Forall (fun i => i ≠ 0%nat) L → c ≠ xf4 →
  foldl replace_halt_run (A ++ c :: B) L =
    foldl replace_halt_run A L ++ c :: foldl replace_halt_run B L.
Proof.
  induction L as [|i L IH]; intros A c B HL Hc; [done|].
  apply Forall_cons in HL as [Hi HL]. destruct i as [|i]; [done|].
  cbn [foldl]. rewrite replace_halt_run_split by done. by apply IH.
Qed.

Lemma halt_loop_app_r L s rest :
  Forall (fun i => i ≠ 0%nat) L → starts_with xf4 rest = false →
  foldl replace_halt_run (s ++ rest) L =
    foldl replace_halt_run s L ++ foldl replace_halt_run rest L.
Proof.
  intros HL Hrest. destruct rest as [|d rest].
  - by rewrite halt_loop_nil, !app_nil_r.
  - cbn in Hrest. apply byte_eqb_neq in Hrest.
    rewrite halt_loop_split by done. f_equal.
    change (d :: rest) with ([] ++ d :: rest).
    rewrite halt_loop_split by done. by rewrite halt_loop_nil.
Qed.

Lemma ends_with_snoc b A c : ends_with b (A ++ [c]) = Byte.eqb c b.
Proof. unfold ends_with. by rewrite last_snoc. Qed.

Lemma halt_loop_app_l L pre s :
  Forall (fun i => i ≠ 0%nat) L → ends_with xf4 pre = false →
  foldl replace_halt_run (pre ++ s) L =
    foldl replace_halt_run pre L ++ foldl replace_halt_run s L
  ∧ last (foldl replace_halt_run pre L) = last pre.
Proof.
  intros HL Hpre. destruct pre as [|a pre _] using rev_ind.
  - by rewrite halt_loop_nil.
  - rewrite ends_with_snoc in Hpre. apply byte_eqb_neq in Hpre.
    rewrite <- app_assoc. cbn [app].
    rewrite !halt_loop_split by done. rewrite halt_loop_nil by done.
    rewrite <- app_assoc. cbn [app]. split; [done|]. by rewrite !last_snoc.
Qed.

Lemma halt_loop_traps L k :
  Forall (fun i => i ≠ 0%nat) L →
  foldl replace_halt_run (replicate k xcc) L = replicate k xcc.
Proof.
  intros HL. induction k as [|k IH]; [by apply halt_loop_nil|].
  cbn [replicate]. change (xcc :: replicate k xcc) with ([] ++ xcc :: replicate k xcc).
  rewrite halt_loop_split by done. by rewrite halt_loop_nil, IH.
Qed.

Lemma halt_run_lengths_positive : Forall (fun i => i ≠ 0%nat) halt_run_lengths.
Proof. vm_compute. repeat constructor; discriminate. Qed.

Lemma halt_run_lengths_cons : halt_run_lengths = 19%nat :: rev (seq 2 17).
Proof. reflexivity. Qed.

Lemma halt_loop_small r :
  (r < 19)%nat →
  foldl replace_halt_run (replicate r xf4) (rev (seq 2 17)) = run_image false r.
Proof.
  intros Hr.
  do 19 (destruct r as [|r]; [vm_compute; reflexivity|]). lia.
Qed.

Lemma ends_with_traps b k : b ≠ xcc → ends_with b (replicate k xcc) = false.
Proof.
  intros Hb. destruct k as [|k]; [done|].
  rewrite replicate_S_end, ends_with_snoc. apply byte_eqb_neq. congruence.
Qed.

Lemma run_image_decompose q r :
  (r < 19)%nat →
  replicate (19 * q) xcc ++ run_image false r = run_image false (19 * q + r).
Proof.
  intros Hr. unfold run_image.
  assert ((19 * q + r) mod 19 = r)%nat as ->.
  { rewrite Nat.add_comm, Nat.mul_comm, Nat.Div0.mod_add. by apply Nat.mod_small. }
  rewrite (Nat.mod_small r 19) by done.
  destruct (r =? 1)%nat eqn:E.
  - apply Nat.eqb_eq in E as ->. cbn [andb].
    replace (19 * q + 1 - 1)%nat with (19 * q)%nat by lia. done.
  - by rewrite replicate_add.
Qed.

Lemma halt_loop_halts n :
  foldl replace_halt_run (replicate n xf4) halt_run_lengths = run_image false n.
Proof.
  pose proof halt_run_lengths_positive as HL.
  rewrite halt_run_lengths_cons in HL |- *. apply Forall_cons in HL as [_ HL].
  cbn [foldl].
  rewrite (Nat.div_mod_eq n 19) at 1.
  assert (n mod 19 < 19)%nat as Hr by (apply Nat.mod_upper_bound; lia).
  rewrite <- (app_nil_r (replicate _ xf4)).
  rewrite (replace_halt_run_run 18 (n / 19) (n mod 19) []) by done.
  rewrite replace_halt_run_nil, app_nil_r.
  destruct (halt_loop_app_l (rev (seq 2 17)) (replicate (19 * (n / 19)) xcc)
              (replicate (n mod 19) xf4) HL) as [-> _].
  { by apply ends_with_traps. }
  rewrite halt_loop_traps by done. rewrite halt_loop_small by done.
  rewrite run_image_decompose by done. by rewrite <- Nat.div_mod_eq.
Qed.

Lemma halt_loop_rel L : ∀ s,
  Forall (fun i => i ≠ 0%nat) L → Forall2 halt_to_trap s (foldl replace_halt_run s L).
Proof.
  induction L as [|i L IH]; intros s HL; [apply halt_to_trap_refl|].
  apply Forall_cons in HL as [Hi HL]. destruct i as [|i]; [done|]. cbn [foldl].
  eapply halt_to_trap_trans; [apply replace_halt_run_rel|by apply IH].
Qed.

Lemma substitute_halts_rel s : Forall2 halt_to_trap s (substitute_halts s).
Proof.
  unfold substitute_halts. rewrite replace_ret_halt.
  eapply halt_to_trap_trans; [apply halt_loop_rel, halt_run_lengths_positive|].
  apply after_ret_pass_rel.
Qed.

Lemma after_ret_pass_run_image b n :
  after_ret_pass b (run_image false n) = run_image b n.
Proof.
  unfold run_image. destruct (n mod 19 =? 1)%nat eqn:E; [|apply after_ret_pass_traps].
  rewrite after_ret_pass_app, after_ret_pass_traps. f_equal.
  destruct (n =? 1)%nat eqn:E1.
  - apply Nat.eqb_eq in E1 as ->. by destruct b.
  - apply Nat.eqb_neq in E1. apply Nat.eqb_eq in E.
    destruct n as [|[|n]]; [done|done|].
    replace (S (S n) - 1)%nat with (S n) by lia.
    rewrite replicate_S_end, last_snoc. by destruct b.
Qed.

(** The image of a maximal run of halt bytes. *)
Lemma substitute_halts_run pre n post :
  ends_with xf4 pre = false → starts_with xf4 post = false →
  ∃ X Y,
    substitute_halts (pre ++ replicate n xf4 ++ post)
      = X ++ run_image (ends_with xc3 pre) n ++ Y ∧
    length X = length pre ∧ length Y = length post.
Proof.
  intros Hpre Hpost. pose proof halt_run_lengths_positive as HL.
  unfold substitute_halts. rewrite replace_ret_halt.
  destruct (halt_loop_app_l halt_run_lengths pre (replicate n xf4 ++ post) HL Hpre)
    as [-> Hlast].
  rewrite (halt_loop_app_r halt_run_lengths (replicate n xf4) post HL Hpost).
  rewrite halt_loop_halts.
  rewrite after_ret_pass_app, Hlast. fold (ends_with xc3 pre).
  rewrite after_ret_pass_app, after_ret_pass_run_image.
  eexists _, _. split; [reflexivity|].
  rewrite !after_ret_pass_length.
  split; symmetry; eapply Forall2_length, halt_loop_rel, HL.
Qed.


Lemma run_image_length b n : (1 ≤ n)%nat → length (run_image b n) = n.
Proof.
  intros Hn. unfold run_image. destruct (n mod 19 =? 1)%nat.
  - rewrite length_app, length_replicate. cbn. lia.
  - apply length_replicate.
Qed.

Lemma run_image_head n : (1 ≤ n)%nat → ∃ t, run_image true n = xcc :: t.
Proof.
  intros Hn. unfold run_image. destruct (n mod 19 =? 1)%nat.
  - destruct n as [|[|n]]; [lia|by eexists|].
    replace (S (S n) - 1)%nat with (S n) by lia. by eexists.
  - destruct n as [|n]; [lia|]. by eexists.
Qed.

Lemma halt_span l :
  ∃ n post, l = replicate n xf4 ++ post ∧ starts_with xf4 post = false.
Proof.
  induction l as [|c l (n & post & -> & Hpost)].
  - by exists 0%nat, [].
  - destruct (Byte.eqb c xf4) eqn:E.
    + apply byte_eqb_eq in E as ->. by exists (S n), post.
    + by exists 0%nat, (c :: replicate n xf4 ++ post).
Qed.

(** C8 (as the code has it): for a decoded string of at most 4096 bytes the
    sanitized string has exactly 4096 bytes; up to the length of the input
    every byte is kept or is a halt byte turned into a trap byte, and the
    rest is padding of trap bytes; a maximal run of [n >= 2] halt bytes
    becomes [n] trap bytes, except that a run of length 19q+1 keeps its
    last halt byte; and a halt byte right after a return byte becomes a trap
    byte. *)
Theorem sanitize_substitutes_and_pads (decoded : bytes) :
  (length decoded ≤ 4096)%nat →
  length (sanitize decoded) = 4096%nat ∧
  Forall2 halt_to_trap decoded (take (length decoded) (sanitize decoded)) ∧
  drop (length decoded) (sanitize decoded) = replicate (4096 - length decoded) xcc ∧
  (∀ pre n post,
     decoded = pre ++ replicate n xf4 ++ post →
     ends_with xf4 pre = false → starts_with xf4 post = false → (2 ≤ n)%nat →
     take n (drop (length pre) (sanitize decoded)) =
       if (n mod 19 =? 1)%nat then replicate (n - 1) xcc ++ [xf4]
       else replicate n xcc) ∧
  (∀ j, decoded !! j = Some xc3 → decoded !! S j = Some xf4 →
        sanitize decoded !! S j = Some xcc).
Proof.
  intros Hlen. pose proof (substitute_halts_rel decoded) as Hrel.
  pose proof (Forall2_length _ _ _ Hrel) as Hl.
  unfold sanitize, ljust. rewrite <- Hl.
  split; [rewrite length_app, length_replicate; lia|].
  split; [by rewrite take_app_length' by done|].
  split; [by rewrite drop_app_length' by done|].
  split.
  - intros pre n post -> Hpre Hpost Hn.
    destruct (substitute_halts_run pre n post Hpre Hpost) as (X & Y & -> & HX & HY).
    rewrite <- !app_assoc. rewrite drop_app_length' by done.
    rewrite take_app_length' by (symmetry; apply run_image_length; lia).
    unfold run_image. replace (n =? 1)%nat with false; [by rewrite andb_false_r|].
    symmetry. apply Nat.eqb_neq. lia.
  - intros j Hj HSj.
    pose proof (lookup_lt_Some _ _ _ HSj) as Hlt.
    destruct (halt_span (drop (S j) decoded)) as (n & post & Hdrop & Hpost).
    assert (1 ≤ n)%nat as Hn.
    { destruct n as [|n]; [|lia]. cbn in Hdrop.
      rewrite <- Hdrop in Hpost. 
      destruct (drop (S j) decoded) as [|c l] eqn:E.
      - apply (f_equal length) in E. rewrite length_drop in E. cbn in E. lia.
      - pose proof (lookup_drop decoded (S j) 0) as Hd. rewrite E in Hd.
        rewrite Nat.add_0_r, HSj in Hd. cbn in Hd. injection Hd as ->. done. }
    assert (last (take (S j) decoded) = Some xc3) as Hlast.
    { rewrite (take_S_r _ _ _ Hj). apply last_snoc. }
    assert (decoded = take (S j) decoded ++ replicate n xf4 ++ post) as Hdec.
    { rewrite <- Hdrop. by rewrite take_drop. }
    destruct (substitute_halts_run (take (S j) decoded) n post) as (X & Y & HXY & HX & HY).
    { unfold ends_with. by rewrite Hlast. }
    { done. }
    rewrite <- Hdec in HXY. rewrite HXY.
    unfold ends_with. rewrite Hlast.
    change (Byte.eqb xc3 xc3) with true.
    destruct (run_image_head n Hn) as [t ->].
    rewrite length_take_le in HX by lia.
    rewrite <- !app_assoc. cbn [app].
    rewrite <- HX. apply list_lookup_middle. done.
Qed.

Lemma sanitize_substitutes_and_pads_witness :
  length (sanitize ex_decoded) = 4096%nat ∧
  Forall2 halt_to_trap ex_decoded (take (length ex_decoded) (sanitize ex_decoded)) ∧
  drop (length ex_decoded) (sanitize ex_decoded)
    = replicate (4096 - length ex_decoded) xcc ∧
  (∀ pre n post,
     ex_decoded = pre ++ replicate n xf4 ++ post →
     ends_with xf4 pre = false → starts_with xf4 post = false → (2 ≤ n)%nat →
     take n (drop (length pre) (sanitize ex_decoded)) =
       if (n mod 19 =? 1)%nat then replicate (n - 1) xcc ++ [xf4]
       else replicate n xcc) ∧
  (∀ j, ex_decoded !! j = Some xc3 → ex_decoded !! S j = Some xf4 →
        sanitize ex_decoded !! S j = Some xcc).
Proof.
  apply (sanitize_substitutes_and_pads ex_decoded).
  unfold ex_decoded. cbn [length]. lia.
Defined.

(** C8 (as stated) fails: of a run of twenty halt bytes the first nineteen
    become trap bytes and the last one stays. *)
Lemma sanitize_run_of_twenty :
  (length (replicate 20 xf4) ≤ 4096)%nat ∧
  take 20 (sanitize (replicate 20 xf4)) = replicate 19 xcc ++ [xf4] ∧
  take 20 (sanitize (replicate 20 xf4)) ≠ replicate 20 xcc.
Proof.
  split; [cbn; lia|]. split; [vm_compute; reflexivity|]. vm_compute. discriminate.
Qed.


(** ** postprocess_chain: the stitch invariant *)

Lemma slice_to_nonneg {A} (s : list A) k : 0 ≤ k → slice_to s k = take (Z.to_nat k) s.
Proof. intros. unfold slice_to. by rewrite decide_True. Qed.

Lemma slice_from_nonneg {A} (s : list A) k : 0 ≤ k → slice_from s k = drop (Z.to_nat k) s.
Proof. intros. unfold slice_from. by rewrite decide_True. Qed.

Lemma sum_stack_change_nonneg gl :
  Forall (fun g => 8 ≤ stack_change g) gl → 0 ≤ sum_stack_change gl.
Proof. induction 1; simpl; lia. Qed.

Lemma getitem_Some {V} (d : gmap Z V) k v : d !! k = Some v → getitem d k = Ok v.
Proof. intros H. unfold getitem. by rewrite H. Qed.

Lemma getitem_None {V} (d : gmap Z V) k : d !! k = None → getitem d k = Raise (KeyError k).
Proof. intros H. unfold getitem. by rewrite H. Qed.

Lemma solution_of_Some gs g sol : gs !! addr g = Some sol → solution_of gs g = sol.
Proof. intros H. unfold solution_of. by rewrite H. Qed.

Lemma postprocess_gadget_eq gs acc p g sol :
  8 ≤ stack_change g → gs !! addr g = Some sol →
  postprocess_gadget gs (acc, p) g =
    Ok (((acc ++ take (Z.to_nat (stack_change g - 8)) p) ++ sol)
          ++ take 8 (drop (Z.to_nat (stack_change g - 8)) p),
        drop 8 (drop (Z.to_nat (stack_change g - 8)) p)).
Proof.
  intros Hsc Hsol. unfold postprocess_gadget.
  rewrite (getitem_Some _ _ _ Hsol). simpl.
  rewrite !slice_to_nonneg, !slice_from_nonneg by lia. done.
Qed.

Lemma postprocess_loop_exact gs gl : ∀ acc p,
  Forall (fun g => 8 ≤ stack_change g) gl →
  Forall (fun g => is_Some (gs !! addr g)) gl →
  Z.of_nat (length p) = sum_stack_change gl →
  ∃ body,
    postprocess_loop gs gl (acc, p) = Ok (acc ++ body, []) ∧
    length body = (length p + sum_solutions gs gl)%nat ∧
    remove_spans gs gl body = p ∧
    body = inject_spans gs gl p ∧
    spans_hold_solutions gs gl body.
Proof.
  induction gl as [|g gl IH]; intros acc p Hsc Hsol Hlen.
  - simpl in *. destruct p; [|simpl in Hlen; lia].
    exists []. by rewrite app_nil_r.
  - apply Forall_cons in Hsc as [Hg Hsc]. apply Forall_cons in Hsol as [[sol Hs] Hsol].
    pose proof (sum_stack_change_nonneg gl Hsc) as Hnn.
    simpl in Hlen. remember (Z.to_nat (stack_change g - 8)) as n eqn:En.
    assert (Hn : (n + 8 ≤ length p)%nat) by lia.
    destruct (IH (((acc ++ take n p) ++ sol) ++ take 8 (drop n p)) (drop 8 (drop n p)))
      as (body & Hrun & Hblen & Hrem & Hinj & Hspans); [done|done| |].
    { rewrite !length_drop. lia. }
    assert (Hl1 : length (take n p) = n) by (rewrite length_take; lia).
    assert (Hl2 : length (take 8 (drop n p)) = 8%nat)
      by (rewrite length_take, length_drop; lia).
    exists (take n p ++ sol ++ take 8 (drop n p) ++ body).
    split; [|split; [|split; [|split]]].
    + cbn [postprocess_loop]. rewrite (postprocess_gadget_eq _ _ _ _ sol) by done.
      cbn. rewrite <- En. rewrite Hrun. by rewrite <- !app_assoc.
    + rewrite !length_app, Hblen, !length_take, !length_drop.
      change (sum_solutions gs (g :: gl))
        with (length (solution_of gs g) + sum_solutions gs gl)%nat.
      rewrite (solution_of_Some _ _ _ Hs). lia.
    + cbn [remove_spans]. rewrite <- En. rewrite (solution_of_Some _ _ _ Hs).
      rewrite (take_app_length' (take n p)) by done.
      rewrite (drop_app_length' (take n p)) by done.
      rewrite drop_app_length.
      rewrite (take_app_length' (take 8 (drop n p))) by done.
      rewrite (drop_app_length' (take 8 (drop n p))) by done.
      rewrite Hrem. by rewrite !take_drop.
    + cbn [inject_spans]. rewrite <- En, (solution_of_Some _ _ _ Hs).
      by rewrite <- Hinj.
    + cbn [spans_hold_solutions]. rewrite <- En, (solution_of_Some _ _ _ Hs).
      rewrite (drop_app_length' (take n p)) by done.
      rewrite take_app_length, drop_app_length.
      rewrite (drop_app_length' (take 8 (drop n p))) by done.
      by split.
Qed.

(** C1: when every gadget consumes at least its own 8-byte address slot and
    has a guard solution, and the payload has exactly 8 bytes plus the sum
    of the stack changes, [postprocess_chain] returns a stitched payload
    whose length is that of the raw payload plus the lengths of the injected
    solutions.  It starts with the first address slot of the raw payload;
    after the consumed bytes of each gadget and before the next address slot
    stands the guard solution of that gadget, byte for byte; and removing
    these spans gives the raw payload back.  Put together, the stitched
    payload is the layout the algorithm describes. *)
Theorem stitch_length_and_inverse (chain : RopChain) (gs : gmap Z bytes) :
  Forall (fun g => 8 ≤ stack_change g) (_gadgets chain) →
  Forall (fun g => is_Some (gs !! addr g)) (_gadgets chain) →
  Z.of_nat (length (payload_str chain)) = 8 + sum_stack_change (_gadgets chain) →
  ∃ stitched,
    postprocess_chain chain gs = Ok stitched ∧
    length stitched =
      (length (payload_str chain) + sum_solutions gs (_gadgets chain))%nat ∧
    take 8 stitched = take 8 (payload_str chain) ∧
    spans_hold_solutions gs (_gadgets chain) (drop 8 stitched) ∧
    unstitch gs (_gadgets chain) stitched = payload_str chain ∧
    stitched =
      take 8 (payload_str chain)
        ++ inject_spans gs (_gadgets chain) (drop 8 (payload_str chain)).
Proof.
  intros Hsc Hsol Hlen.
  pose proof (sum_stack_change_nonneg _ Hsc) as Hnn.
  set (p := payload_str chain) in *.
  destruct (postprocess_loop_exact gs (_gadgets chain) (take 8 p) (drop 8 p) Hsc Hsol)
    as (body & Hrun & Hblen & Hrem & Hinj & Hspans).
  { rewrite length_drop. lia. }
  assert (Hl : length (take 8 p) = 8%nat) by (rewrite length_take; lia).
  exists (take 8 p ++ body). split; [|split; [|split; [|split; [|split]]]].
  - unfold postprocess_chain. fold p. rewrite !slice_to_nonneg, !slice_from_nonneg by lia.
    change (Z.to_nat 8) with 8%nat. rewrite Hrun. simpl. done.
  - rewrite length_app, Hblen, length_take, length_drop. lia.
  - by rewrite (take_app_length' (take 8 p)) by done.
  - by rewrite (drop_app_length' (take 8 p)) by done.
  - unfold unstitch.
    rewrite (take_app_length' (take 8 p)), (drop_app_length' (take 8 p)) by done.
    rewrite Hrem. apply take_drop.
  - by rewrite <- Hinj.
Qed.

Lemma stitch_length_and_inverse_witness :
  ∃ stitched,
    postprocess_chain ex_chain ex_solutions = Ok stitched ∧
    length stitched =
      (length (payload_str ex_chain) + sum_solutions ex_solutions (_gadgets ex_chain))%nat ∧
    take 8 stitched = take 8 (payload_str ex_chain) ∧
    spans_hold_solutions ex_solutions (_gadgets ex_chain) (drop 8 stitched) ∧
    unstitch ex_solutions (_gadgets ex_chain) stitched = payload_str ex_chain ∧
    stitched =
      take 8 (payload_str ex_chain)
        ++ inject_spans ex_solutions (_gadgets ex_chain) (drop 8 (payload_str ex_chain)).
Proof.
  apply (stitch_length_and_inverse ex_chain ex_solutions).
  - repeat constructor; vm_compute; discriminate.
  - repeat constructor; vm_compute; eexists; reflexivity.
  - vm_compute. reflexivity.
Defined.


(** ** The chain stitcher fails on a payload that is too long *)

Lemma postprocess_gadget_unsolved gs st g :
  gs !! addr g = None → postprocess_gadget gs st g = Raise (KeyError (addr g)).
Proof.
  intros H. destruct st as [acc p]. unfold postprocess_gadget.
  by rewrite (getitem_None _ _ H).
Qed.

Lemma postprocess_loop_remainder gs gl : ∀ acc p,
  Forall (fun g => 8 ≤ stack_change g) gl →
  (∃ acc' p', postprocess_loop gs gl (acc, p) = Ok (acc', p') ∧
              Z.of_nat (length p) - sum_stack_change gl ≤ Z.of_nat (length p'))
  ∨ (∃ g, g ∈ gl ∧ gs !! addr g = None ∧
          postprocess_loop gs gl (acc, p) = Raise (KeyError (addr g))).
Proof.
  induction gl as [|g gl IH]; intros acc p Hsc.
  - left. exists acc, p. simpl. split; [done|lia].
  - apply Forall_cons in Hsc as [Hg Hsc]. cbn [postprocess_loop].
    destruct (gs !! addr g) as [sol|] eqn:Hs.
    + rewrite (postprocess_gadget_eq _ _ _ _ sol) by done.
      remember (Z.to_nat (stack_change g - 8)) as n eqn:En.
      destruct (IH (((acc ++ take n p) ++ sol) ++ take 8 (drop n p))
                   (drop 8 (drop n p)) Hsc)
        as [(acc' & p' & Hrun & Hle)|(g' & Hin & Hnone & Hrun)].
      * left. exists acc', p'. split; [exact Hrun|].
        rewrite !length_drop in Hle. cbn [sum_stack_change foldr].
        fold (sum_stack_change gl). lia.
      * right. exists g'. split; [apply elem_of_cons; by right|]. by split.
    + right. exists g. split; [apply elem_of_cons; by left|]. split; [done|].
      by rewrite (postprocess_gadget_unsolved _ _ _ Hs).
Qed.

(** C3 (as the code has it): when every gadget consumes at least its own
    8-byte address slot and the payload is longer than 8 plus the sum of
    the stack changes, [postprocess_chain] raises: the assertion of line 66
    fails, unless a gadget without a guard solution raised a [KeyError]
    before.  (A payload that is too short is not covered by the check.) *)
Theorem postprocess_chain_too_long_fails (chain : RopChain) (gs : gmap Z bytes) :
  Forall (fun g => 8 ≤ stack_change g) (_gadgets chain) →
  8 + sum_stack_change (_gadgets chain) < Z.of_nat (length (payload_str chain)) →
  postprocess_chain chain gs = Raise (AssertionError 66)
  ∨ ∃ g, g ∈ _gadgets chain ∧ gs !! addr g = None ∧
         postprocess_chain chain gs = Raise (KeyError (addr g)).
Proof.
  intros Hsc Hlen. unfold postprocess_chain.
  rewrite slice_to_nonneg, slice_from_nonneg by lia.
  change (Z.to_nat 8) with 8%nat.
  destruct (postprocess_loop_remainder gs (_gadgets chain)
              (take 8 (payload_str chain)) (drop 8 (payload_str chain)) Hsc)
    as [(acc' & p' & Hrun & Hle)|(g & Hin & Hnone & Hrun)].
  - left. rewrite Hrun. cbn. rewrite length_drop in Hle.
    rewrite decide_False; [done|lia].
  - right. exists g. rewrite Hrun. done.
Qed.

Lemma postprocess_chain_too_long_fails_witness :
  postprocess_chain ex_long_chain ex_solutions = Raise (AssertionError 66)
  ∨ ∃ g, g ∈ _gadgets ex_long_chain ∧ ex_solutions !! addr g = None ∧
         postprocess_chain ex_long_chain ex_solutions = Raise (KeyError (addr g)).
Proof.
  apply (postprocess_chain_too_long_fails ex_long_chain ex_solutions).
  - repeat constructor; vm_compute; discriminate.
  - vm_compute. reflexivity.
Defined.

(** C3 (as stated) fails: a 10-byte payload for one gadget with stack
    change 16 is 14 bytes short of 8 + 16, yet the stitcher returns. *)
Lemma postprocess_chain_short_payload_returns :
  Z.of_nat (length (payload_str ex_short_chain))
    ≠ 8 + sum_stack_change (_gadgets ex_short_chain)
  ∧ postprocess_chain ex_short_chain ex_solutions
    = Ok [x00; x01; x02; x03; x04; x05; x06; x07; x08; x09; x11; x22].
Proof. split; [vm_compute; discriminate|vm_compute; reflexivity]. Qed.

(** The bound on the stack changes is needed: with a stack change below 8
    the slice bounds are negative and count from the end of the payload, and
    a 24-byte payload for one gadget with stack change 0 is consumed whole. *)
Lemma postprocess_chain_negative_slice_returns :
  postprocess_chain
    {| _gadgets := [{| addr := 4096; stack_change := 0; reg_moves := [] |}];
       payload_str := ex_payload 24 |} ex_solutions
  = Ok (take 16 (ex_payload 24) ++ [x11; x22] ++ drop 16 (ex_payload 24)).
Proof. vm_compute. reflexivity. Qed.

(** ** Guard recovery *)

Lemma recover_guards_app explore fs1 : ∀ fs2 st,
  recover_guards explore (fs1 ++ fs2) st =
  (recover_guards explore fs1 st ≫= recover_guards explore fs2).
Proof.
  induction fs1 as [|f fs1 IH]; intros fs2 st; [done|].
  cbn [app recover_guards].
  destruct (recover_function explore st f) as [st'|e]; [|done].
  cbn. apply IH.
Qed.

Lemma recover_function_trivial explore st f :
  (length (blocks f) ≤ 1)%nat → recover_function explore st f = Ok st.
Proof.
  intros H. destruct st as [gs mem]. unfold recover_function.
  by rewrite decide_True.
Qed.

(** C9: a function with at most one basic block is skipped: the loop body
    returns the state (guard solutions and image) as it got it, and the
    loop over the functions goes on as if the function were not there. *)
Theorem malformed_function_skipped
    (explore : gmap Z byte → Z → list Path)
    (fs1 fs2 : list Function) (f : Function)
    (st : gmap Z bytes * gmap Z byte) :
  (length (blocks f) ≤ 1)%nat →
  recover_function explore st f = Ok st ∧
  recover_guards explore (fs1 ++ f :: fs2) st = recover_guards explore (fs1 ++ fs2) st.
Proof.
  intros H. split; [by apply recover_function_trivial|].
  rewrite !recover_guards_app.
  destruct (recover_guards explore fs1 st) as [st'|e]; [|done].
  cbn. by rewrite recover_function_trivial.
Qed.

Lemma malformed_function_skipped_witness :
  recover_function (ex_explore (ex_path 4100)) (ex_solutions, ex_memory) ex_trivial_function
    = Ok (ex_solutions, ex_memory) ∧
  recover_guards (ex_explore (ex_path 4100)) ([ex_function] ++ ex_trivial_function :: [ex_function])
      (ex_solutions, ex_memory)
    = recover_guards (ex_explore (ex_path 4100)) ([ex_function] ++ [ex_function])
        (ex_solutions, ex_memory).
Proof.
  apply (malformed_function_skipped (ex_explore (ex_path 4100))
           [ex_function] [ex_function] ex_trivial_function (ex_solutions, ex_memory)).
  vm_compute. lia.
Defined.


Lemma guard_leaves_no_symbolic gds :
  Forall (fun gd => guard_symbolic gd = false) gds → guard_leaves gds = [].
Proof. induction 1 as [|gd gds Hgd _ IH]; [done|]. simpl. by rewrite Hgd. Qed.

Lemma check_addrs_no_guys acts :
  check_addrs [] acts =
    if existsb is_mem_read acts then Raise TypeError else Ok [].
Proof.
  induction acts as [|a acts IH]; [done|].
  cbn [check_addrs existsb]. unfold reads_guard_input.
  destruct (is_mem_read a); [done|]. cbn. rewrite IH.
  by destruct (existsb is_mem_read acts).
Qed.

(** C4 (as the code has it): for a function with more than one basic block
    whose good path records no symbolic guard, the loop body raises: the
    union of the guard variables has no operand ([TypeError]) as soon as
    the path has a memory read, and otherwise [min] gets an empty sequence
    ([ValueError]).  No solution is recorded and no byte is patched. *)
Theorem recover_function_zero_guards_fails
    (explore : gmap Z byte → Z → list Path)
    (gs : gmap Z bytes) (memory : gmap Z byte) (f : Function)
    (good_path : Path) (others : list Path) :
  (1 < length (blocks f))%nat →
  explore memory (func_addr f) = good_path :: others →
  Forall (fun gd => guard_symbolic gd = false) (guards good_path) →
  recover_function explore (gs, memory) f =
    Raise (if existsb is_mem_read (actions good_path) then TypeError else ValueError).
Proof.
  intros Hb Hex Hg. unfold recover_function, guard_conditions.
  rewrite decide_False by lia. rewrite Hex. cbn [first_item]. rewrite bind_Ok.
  unfold symbolic_guard_guys. rewrite (guard_leaves_no_symbolic _ Hg).
  cbn. unfold start_of_checks. rewrite check_addrs_no_guys.
  by destruct (existsb is_mem_read (actions good_path)).
Qed.

Lemma recover_function_zero_guards_fails_witness :
  recover_function (ex_explore ex_unguarded_path) (ex_solutions, ex_memory) ex_function =
    Raise (if existsb is_mem_read (actions ex_unguarded_path) then TypeError else ValueError).
Proof.
  apply (recover_function_zero_guards_fails (ex_explore ex_unguarded_path)
           ex_solutions ex_memory ex_function ex_unguarded_path []).
  - vm_compute. lia.
  - reflexivity.
  - repeat constructor.
Defined.

(** C4 (as stated) fails: a two-block function whose good path has only a
    concrete guard makes the loop body raise instead of recording an empty
    solution. *)
Lemma recover_function_zero_guards_raises :
  (1 < length (blocks ex_function))%nat ∧
  Forall (fun gd => guard_symbolic gd = false) (guards ex_unguarded_path) ∧
  recover_function (ex_explore ex_unguarded_path) (∅, ex_memory) ex_function
    = Raise TypeError.
Proof.
  split; [vm_compute; lia|]. split; [repeat constructor|]. vm_compute. reflexivity.
Qed.

(** *** The boundary and the recorded solutions *)

Lemma foldl_min_spec l : ∀ x,
  foldl Z.min x l ∈ x :: l ∧ ∀ y, y ∈ x :: l → foldl Z.min x l ≤ y.
Proof.
  induction l as [|z l IH]; intros x.
  - simpl. split; [apply elem_of_cons; by left|].
    intros y Hy. apply elem_of_cons in Hy as [->|Hy]; [lia|]. by apply elem_of_nil in Hy.
  - cbn [foldl]. destruct (IH (Z.min x z)) as [Hin Hle]. split.
    + apply elem_of_cons in Hin as [Heq|Hin].
      * rewrite Heq. destruct (Z.min_spec x z) as [[_ ->]|[_ ->]].
        -- apply elem_of_cons; by left.
        -- apply elem_of_cons; right. apply elem_of_cons; by left.
      * apply elem_of_cons; right. apply elem_of_cons; by right.
    + intros y Hy.
      assert (foldl Z.min (Z.min x z) l ≤ Z.min x z) as Hm
        by (apply Hle, elem_of_cons; by left).
      apply elem_of_cons in Hy as [->|Hy]; [lia|].
      apply elem_of_cons in Hy as [->|Hy]; [lia|].
      apply Hle. apply elem_of_cons; by right.
Qed.

Lemma py_min_spec l m :
  py_min l = Ok m → m ∈ l ∧ ∀ y, y ∈ l → m ≤ y.
Proof.
  destruct l as [|x l]; [done|]. cbn. intros [= <-]. apply foldl_min_spec.
Qed.

Lemma check_addrs_spec guys acts : ∀ l,
  check_addrs guys acts = Ok l →
  ∀ x, x ∈ l ↔ ∃ act, act ∈ acts ∧ ins_addr act = x ∧ reads_guard_input guys act = Ok true.
Proof.
  induction acts as [|a acts IH]; intros l Hl x.
  - cbn in Hl. injection Hl as <-. split.
    + intros H. by apply elem_of_nil in H.
    + intros (act & H & _). by apply elem_of_nil in H.
  - cbn [check_addrs] in Hl.
    apply bind_Ok_inv in Hl as (b & Hb & Hl).
    apply bind_Ok_inv in Hl as (rest & Hrest & Hl).
    injection Hl as <-. specialize (IH rest Hrest x).
    destruct b.
    + rewrite elem_of_cons, IH. split.
      * intros [->|(act & Hin & Hx & Hr)].
        -- exists a. split; [apply elem_of_cons; by left|done].
        -- exists act. split; [apply elem_of_cons; by right|done].
      * intros (act & Hin & Hx & Hr). apply elem_of_cons in Hin as [->|Hin].
        -- by left.
        -- right. by exists act.
    + rewrite IH. split.
      * intros (act & Hin & Hx & Hr). exists act.
        split; [apply elem_of_cons; by right|done].
      * intros (act & Hin & Hx & Hr). apply elem_of_cons in Hin as [->|Hin].
        -- congruence.
        -- by exists act.
Qed.

Lemma reads_guard_input_true_guys guys act :
  reads_guard_input guys act = Ok true → guys ≠ [].
Proof.
  intros H ->. unfold reads_guard_input in H.
  destruct (is_mem_read act); cbn in H; discriminate.
Qed.

Lemma foldl_insert_lookup (sol : bytes) l : ∀ (gs : gmap Z bytes) a,
  foldl (fun d a => <[a := sol]> d) gs l !! a =
    if decide (a ∈ l) then Some sol else gs !! a.
Proof.
  induction l as [|x l IH]; intros gs a.
  - cbn. rewrite decide_False; [done|]. apply not_elem_of_nil.
  - cbn [foldl]. rewrite IH.
    destruct (decide (a ∈ l)) as [Hin|Hnin].
    + rewrite decide_True; [done|]. apply elem_of_cons; by right.
    + destruct (decide (a = x)) as [->|Hne].
      * rewrite lookup_insert_eq. rewrite decide_True; [done|]. apply elem_of_cons; by left.
      * rewrite lookup_insert_ne by done. rewrite decide_False; [done|].
        intros [?|?]%elem_of_cons; done.
Qed.

Lemma record_solutions_lookup gs lo hi sol a :
  record_solutions gs lo hi sol !! a =
    if decide (lo ≤ a < hi) then Some sol else gs !! a.
Proof.
  unfold record_solutions. rewrite foldl_insert_lookup.
  destruct (decide (a ∈ seqZ lo (hi - lo))) as [Hin|Hnin].
  - apply elem_of_seqZ in Hin. rewrite decide_True; [done|lia].
  - rewrite decide_False; [done|]. intros H. apply Hnin, elem_of_seqZ. lia.
Qed.

(** C2 (as the code has it): when the loop body succeeds on a function with
    more than one block, there is at least one guard variable, the boundary
    is the least instruction address among the memory reads touching a guard
    variable, every address in [entry, boundary) maps to the one solved
    string, and all other addresses keep their entry.  The boundary is at or
    after the entry when every recorded action is; the code itself does not
    compare the two. *)
Theorem recover_function_records_solutions
    (explore : gmap Z byte → Z → list Path)
    (gs gs' : gmap Z bytes) (memory memory' : gmap Z byte) (f : Function) :
  (1 < length (blocks f))%nat →
  recover_function explore (gs, memory) f = Ok (gs', memory') →
  ∃ good_path guys start,
    guard_conditions explore memory f = Ok (good_path, guys, start) ∧
    guys ≠ [] ∧
    (∃ act, act ∈ actions good_path ∧ ins_addr act = start ∧
            reads_guard_input guys act = Ok true) ∧
    (∀ act, act ∈ actions good_path → reads_guard_input guys act = Ok true →
            start ≤ ins_addr act) ∧
    (∀ a, func_addr f ≤ a < start → gs' !! a = Some (any_str good_path guys)) ∧
    (∀ a, ¬ (func_addr f ≤ a < start) → gs' !! a = gs !! a) ∧
    ((∀ act, act ∈ actions good_path → func_addr f ≤ ins_addr act) →
     func_addr f ≤ start).
Proof.
  intros Hb Hrun. unfold recover_function in Hrun.
  rewrite decide_False in Hrun by lia.
  apply bind_Ok_inv in Hrun as ([[good_path guys] start] & Hgc & Hrun).
  injection Hrun as <- <-.
  exists good_path, guys, start. split; [done|].
  unfold guard_conditions in Hgc.
  apply bind_Ok_inv in Hgc as (p & Hp & Hgc).
  apply bind_Ok_inv in Hgc as (g & Hguys & Hgc).
  apply bind_Ok_inv in Hgc as (s & Hstart & Hgc).
  injection Hgc as -> -> ->.
  unfold start_of_checks in Hstart.
  apply bind_Ok_inv in Hstart as (l & Hl & Hmin).
  apply py_min_spec in Hmin as [Hin Hleast].
  pose proof (check_addrs_spec _ _ _ Hl) as Hspec.
  destruct (proj1 (Hspec start) Hin) as (act & Hact & Haddr & Hreads).
  split; [by eapply reads_guard_input_true_guys|].
  split; [by exists act|].
  split.
  { intros act' Hin' Hreads'. apply Hleast, Hspec. by exists act'. }
  split.
  { intros a Ha. rewrite record_solutions_lookup. by rewrite decide_True. }
  split.
  { intros a Ha. rewrite record_solutions_lookup. by rewrite decide_False. }
  intros Hall. rewrite <- Haddr. by apply Hall.
Qed.


Lemma recover_function_records_solutions_witness :
  ∃ good_path guys start,
    guard_conditions (ex_explore (ex_path 4100)) ex_memory ex_function
      = Ok (good_path, guys, start) ∧
    guys ≠ [] ∧
    (∃ act, act ∈ actions good_path ∧ ins_addr act = start ∧
            reads_guard_input guys act = Ok true) ∧
    (∀ act, act ∈ actions good_path → reads_guard_input guys act = Ok true →
            start ≤ ins_addr act) ∧
    (∀ a, func_addr ex_function ≤ a < start →
          record_solutions ∅ 4096 4100 (replicate 16 x41) !! a
            = Some (any_str good_path guys)) ∧
    (∀ a, ¬ (func_addr ex_function ≤ a < start) →
          record_solutions ∅ 4096 4100 (replicate 16 x41) !! a = (∅ : gmap Z bytes) !! a) ∧
    ((∀ act, act ∈ actions good_path → func_addr ex_function ≤ ins_addr act) →
     func_addr ex_function ≤ start).
Proof.
  apply (recover_function_records_solutions (ex_explore (ex_path 4100))
           ∅ (record_solutions ∅ 4096 4100 (replicate 16 x41))
           ex_memory (neutralize ex_memory 4100) ex_function).
  - vm_compute. lia.
  - vm_compute. reflexivity.
Defined.

(** C2 (as stated) fails: the good path of a function entered at 4096 whose
    first read of a guard variable is recorded at 4090 gives a boundary
    below the entry; the loop body succeeds and records nothing. *)
Lemma guard_boundary_below_entry :
  (1 < length (blocks ex_function))%nat ∧
  guard_conditions (ex_explore (ex_path 4090)) ex_memory ex_function
    = Ok (ex_path 4090, [BVS "w0"; BVS "w1"], 4090) ∧
  recover_function (ex_explore (ex_path 4090)) (∅, ex_memory) ex_function
    = Ok (∅, neutralize ex_memory 4090) ∧
  ¬ (func_addr ex_function ≤ 4090).
Proof.
  split; [vm_compute; lia|]. split; [vm_compute; reflexivity|].
  split; [vm_compute; reflexivity|]. vm_compute. by intros H.
Qed.

Lemma recover_function_patches explore gs gs' memory memory' f :
  (1 < length (blocks f))%nat →
  recover_function explore (gs, memory) f = Ok (gs', memory') →
  ∃ good_path guys start,
    guard_conditions explore memory f = Ok (good_path, guys, start) ∧
    memory' = neutralize memory start.
Proof.
  intros Hb Hrun. unfold recover_function in Hrun.
  rewrite decide_False in Hrun by lia.
  apply bind_Ok_inv in Hrun as ([[good_path guys] start] & Hgc & Hrun).
  injection Hrun as <- <-. by exists good_path, guys, start.
Qed.

(** ** Neutralizing *)

(** C7: neutralizing an address writes the return opcode [0xc3] at that
    address, leaves the byte at every other address as it was, and doing it
    a second time changes nothing. *)
Theorem neutralize_single_byte_idempotent (memory : gmap Z byte) (a : Z) :
  neutralize memory a !! a = Some xc3 ∧
  (∀ b, b ≠ a → neutralize memory a !! b = memory !! b) ∧
  neutralize (neutralize memory a) a = neutralize memory a.
Proof.
  unfold neutralize. cbn [write_bytes]. split; [apply lookup_insert_eq|]. split.
  - intros b Hb. by apply lookup_insert_ne.
  - apply insert_insert_eq.
Qed.

Lemma neutralize_single_byte_idempotent_witness :
  neutralize ex_memory 4099 !! 4099 = Some xc3 ∧
  (∀ b, b ≠ 4099 → neutralize ex_memory 4099 !! b = ex_memory !! b) ∧
  neutralize (neutralize ex_memory 4099) 4099 = neutralize ex_memory 4099.
Proof. exact (neutralize_single_byte_idempotent ex_memory 4099). Defined.

(** ** The round *)

Lemma unrecognized_nil gs chain :
  unrecognized gs chain = [] ↔
  Forall (fun g => is_Some (gs !! addr g)) (_gadgets chain).
Proof.
  unfold unrecognized. induction (_gadgets chain) as [|g gl IH].
  - split; [constructor|done].
  - rewrite filter_cons. destruct (decide (gs !! addr g = None)) as [Hn|Hs].
    + split; [done|]. intros [[v Hv] _]%Forall_cons. congruence.
    + rewrite IH. rewrite Forall_cons. split; [|tauto].
      intros H. split; [|done]. destruct (gs !! addr g); [by eexists|done].
Qed.

Lemma validate_chains_orphan gs chains chain g :
  chain ∈ chains → g ∈ _gadgets chain → gs !! addr g = None →
  validate_chains gs chains = Raise (AssertionError 163).
Proof.
  intros Hc Hg Hn. induction chains as [|c chains IH]; [by apply elem_of_nil in Hc|].
  cbn [validate_chains]. destruct (unrecognized gs c) eqn:Hu; [|done].
  apply elem_of_cons in Hc as [->|Hc]; [|by apply IH].
  apply unrecognized_nil in Hu. rewrite Forall_forall in Hu.
  destruct (Hu g Hg) as [v Hv]. congruence.
Qed.

Lemma assemble_orphan gs chains gadgets chain g :
  chain ∈ chains → g ∈ _gadgets chain → gs !! addr g = None →
  assemble gs chains gadgets = Raise (AssertionError 163).
Proof.
  intros Hc Hg Hn. unfold assemble.
  by rewrite (validate_chains_orphan gs chains chain g).
Qed.

(** C5: when one of the three synthesized chains uses a gadget whose
    address has no guard solution, the sanity check of line 163 fails and
    that assertion error is the result of the round: no chain is stitched
    and no payload is returned, whatever the stitcher would have done. *)
Theorem unrecognized_gadget_aborts_round
    (explore : gmap Z byte → Z → list Path) (functions : list Function)
    (memory : gmap Z byte) (find_gadgets : gmap Z byte → list RopGadget)
    (do_syscall : gmap Z byte → Z → list Z → result RopChain)
    (st : gmap Z bytes * gmap Z byte) (c_open c_read c_write chain : RopChain)
    (g : RopGadget) :
  recover_guards explore functions (∅, memory) = Ok st →
  do_syscall st.2 2 [10485760; 0; 0] = Ok c_open →
  do_syscall st.2 0 [3; 10485760; 1024] = Ok c_read →
  do_syscall st.2 1 [1; 10485760] = Ok c_write →
  chain ∈ [c_open; c_read; c_write] →
  g ∈ _gadgets chain →
  st.1 !! addr g = None →
  validate_chains st.1 [c_open; c_read; c_write] = Raise (AssertionError 163) ∧
  get_gadgets explore functions memory find_gadgets do_syscall
    = Raise (AssertionError 163).
Proof.
  intros Hrec Ho Hr Hw Hc Hg Hn.
  split; [by eapply validate_chains_orphan|].
  unfold get_gadgets. rewrite Hrec, bind_Ok. cbn zeta.
  rewrite Ho, bind_Ok, Hr, bind_Ok, Hw, bind_Ok.
  by eapply assemble_orphan.
Qed.

Lemma unrecognized_gadget_aborts_round_witness :
  validate_chains ex_state.1 [ex_orphan_chain; ex_orphan_chain; ex_orphan_chain]
    = Raise (AssertionError 163) ∧
  get_gadgets (ex_explore (ex_path 4100)) [ex_function] ex_memory
      (ex_find_gadgets [ex_mov_gadget]) (ex_do_syscall ex_orphan_chain)
    = Raise (AssertionError 163).
Proof.
  apply (unrecognized_gadget_aborts_round (ex_explore (ex_path 4100)) [ex_function]
           ex_memory (ex_find_gadgets [ex_mov_gadget]) (ex_do_syscall ex_orphan_chain)
           ex_state ex_orphan_chain ex_orphan_chain ex_orphan_chain
           ex_orphan_chain ex_unknown_gadget).
  - vm_compute. reflexivity.
  - reflexivity.
  - reflexivity.
  - reflexivity.
  - apply elem_of_cons. by left.
  - apply elem_of_cons. right. apply elem_of_cons. by left.
  - vm_compute. reflexivity.
Defined.


Lemma postprocess_gadget_Ok_solved gs st g st' :
  postprocess_gadget gs st g = Ok st' → is_Some (gs !! addr g).
Proof.
  destruct st as [acc p]. unfold postprocess_gadget, getitem.
  destruct (gs !! addr g); [by eexists|done].
Qed.

Lemma postprocess_loop_Ok_solved gs gl : ∀ st st',
  postprocess_loop gs gl st = Ok st' →
  Forall (fun g => is_Some (gs !! addr g)) gl.
Proof.
  induction gl as [|g gl IH]; intros st st' H; [constructor|].
  cbn [postprocess_loop] in H. apply bind_Ok_inv in H as (st1 & H1 & H2).
  constructor; [by eapply postprocess_gadget_Ok_solved|by eapply IH].
Qed.

Lemma postprocess_chain_Ok_solved chain gs stitched :
  postprocess_chain chain gs = Ok stitched →
  Forall (fun g => is_Some (gs !! addr g)) (_gadgets chain).
Proof.
  unfold postprocess_chain. intros H.
  apply bind_Ok_inv in H as (st & H & _). by eapply postprocess_loop_Ok_solved.
Qed.

Lemma postprocess_chains_validate gs chains : ∀ stitched,
  postprocess_chains gs chains = Ok stitched → validate_chains gs chains = Ok tt.
Proof.
  induction chains as [|c chains IH]; intros stitched H; [done|].
  cbn [postprocess_chains] in H.
  apply bind_Ok_inv in H as (s & Hs & H).
  apply bind_Ok_inv in H as (rest & Hrest & _).
  cbn [validate_chains].
  rewrite (proj2 (unrecognized_nil gs c) (postprocess_chain_Ok_solved _ _ _ Hs)).
  by eapply IH.
Qed.

Lemma postprocess_chains_three gs c1 c2 c3 stitched :
  postprocess_chains gs [c1; c2; c3] = Ok stitched ↔
  ∃ s1 s2 s3, postprocess_chain c1 gs = Ok s1 ∧ postprocess_chain c2 gs = Ok s2 ∧
              postprocess_chain c3 gs = Ok s3 ∧ stitched = [s1; s2; s3].
Proof.
  cbn [postprocess_chains]. split.
  - intros H.
    apply bind_Ok_inv in H as (s1 & H1 & H).
    apply bind_Ok_inv in H as (r1 & H & E1).
    apply bind_Ok_inv in H as (s2 & H2 & H).
    apply bind_Ok_inv in H as (r2 & H & E2).
    apply bind_Ok_inv in H as (s3 & H3 & H).
    rewrite bind_Ok in H. simplify_eq. by exists s1, s2, s3.
  - intros (s1 & s2 & s3 & -> & -> & -> & ->). done.
Qed.

Lemma pack_Q_Ok v packed :
  pack_Q v = Ok packed ↔ 0 ≤ v < 2 ^ 64 ∧ packed = le_bytes 8 v.
Proof.
  unfold pack_Q. destruct (decide (0 ≤ v < 2 ^ 64)) as [H|H].
  - split; [by intros [= <-]|by intros [_ ->]].
  - split; [done|]. by intros [? _].
Qed.

Lemma next_mov_gadget_Ok gadgets g :
  next_mov_gadget gadgets = Ok g ↔ find moves_rax_to_rdx gadgets = Some g.
Proof.
  unfold next_mov_gadget. destruct (find moves_rax_to_rdx gadgets).
  - split; congruence.
  - split; discriminate.
Qed.

Lemma getitem_Ok {V} (d : gmap Z V) k v : getitem d k = Ok v ↔ d !! k = Some v.
Proof. unfold getitem. destruct (d !! k); split; congruence. Qed.

Lemma assemble_Ok_iff gs c_open c_read c_write gadgets final :
  assemble gs [c_open; c_read; c_write] gadgets = Ok final ↔
  ∃ s_open s_read s_write g sol,
    postprocess_chain c_open gs = Ok s_open ∧
    postprocess_chain c_read gs = Ok s_read ∧
    postprocess_chain c_write gs = Ok s_write ∧
    find moves_rax_to_rdx gadgets = Some g ∧
    0 ≤ addr g < 2 ^ 64 ∧
    gs !! addr g = Some sol ∧
    final = s_open ++ s_read ++ (le_bytes 8 (addr g) ++ sol) ++ s_write.
Proof.
  unfold assemble. split.
  - intros H.
    apply bind_Ok_inv in H as ([] & Hv & H).
    apply bind_Ok_inv in H as (stitched & Hst & H).
    apply bind_Ok_inv in H as (g & Hg & H).
    apply bind_Ok_inv in H as (packed & Hp & H).
    apply bind_Ok_inv in H as (sol & Hsol & H).
    apply postprocess_chains_three in Hst as (s1 & s2 & s3 & H1 & H2 & H3 & ->).
    apply pack_Q_Ok in Hp as [Hrange ->].
    apply next_mov_gadget_Ok in Hg. apply getitem_Ok in Hsol.
    injection H as <-.
    exists s1, s2, s3, g, sol. repeat (split; [done|]).
    cbn. by rewrite app_nil_r.
  - intros (s1 & s2 & s3 & g & sol & H1 & H2 & H3 & Hg & Hrange & Hsol & ->).
    assert (postprocess_chains gs [c_open; c_read; c_write] = Ok [s1; s2; s3]) as Hst.
    { apply postprocess_chains_three. by exists s1, s2, s3. }
    rewrite (postprocess_chains_validate _ _ _ Hst), bind_Ok, Hst, bind_Ok.
    rewrite (proj2 (next_mov_gadget_Ok _ _) Hg), bind_Ok.
    rewrite (proj2 (pack_Q_Ok _ _) (conj Hrange eq_refl)), bind_Ok.
    rewrite (proj2 (getitem_Ok _ _ _) Hsol), bind_Ok.
    cbn. by rewrite app_nil_r.
Qed.

Lemma moves_rax_to_rdx_spec g :
  moves_rax_to_rdx g = true ↔
  ∃ m ms, reg_moves g = m :: ms ∧ from_reg m = "rax"%string ∧ to_reg m = "rdx"%string.
Proof.
  unfold moves_rax_to_rdx. destruct (reg_moves g) as [|m ms].
  - split; [done|]. by intros (? & ? & ? & _).
  - rewrite andb_true_iff, !String.eqb_eq. split.
    + intros [? ?]. by exists m, ms.
    + by intros (? & ? & [= <- <-] & ? & ?).
Qed.

Lemma byte_of_Z_value z : Z.of_N (Byte.to_N (byte_of_Z z)) = z mod 256.
Proof.
  unfold byte_of_Z.
  assert (0 ≤ z mod 256 < 256) as Hr by (apply Z.mod_pos_bound; lia).
  destruct (Byte.of_N (Z.to_N (z mod 256))) as [b|] eqn:E.
  - apply Byte.to_of_N in E. cbn. rewrite E. lia.
  - apply Byte.of_N_None_iff in E. lia.
Qed.

Lemma le_bytes_length n : ∀ v, length (le_bytes n v) = n.
Proof. induction n as [|n IH]; intros v; [done|]. cbn. by rewrite IH. Qed.

Lemma le_value_le_bytes n : ∀ v, le_value (le_bytes n v) = v mod 256 ^ Z.of_nat n.
Proof.
  induction n as [|n IH]; intros v.
  - cbn. by rewrite Z.mod_1_r.
  - cbn [le_bytes le_value foldr]. fold (le_value (le_bytes n (v / 256))).
    rewrite IH, byte_of_Z_value.
    rewrite Nat2Z.inj_succ, Z.pow_succ_r by lia.
    rewrite (Z.rem_mul_r v 256 (256 ^ Z.of_nat n)); lia.
Qed.

(** C6: the round returns a payload exactly when guard recovery and the
    three syscall chains succeed, every chain stitches, and a gadget whose
    first register move is rax to rdx is found with a guard solution; the
    payload is then the stitched open chain, the stitched read chain, the
    move chain and the stitched write chain, in this order, and the move
    chain is the 8-byte little-endian address of the move gadget followed by
    that gadget's guard solution. *)
Theorem final_payload_is_ordered_concatenation
    (explore : gmap Z byte → Z → list Path) (functions : list Function)
    (memory : gmap Z byte) (find_gadgets : gmap Z byte → list RopGadget)
    (do_syscall : gmap Z byte → Z → list Z → result RopChain)
    (final : bytes) :
  get_gadgets explore functions memory find_gadgets do_syscall = Ok final ↔
  ∃ st c_open c_read c_write s_open s_read s_write g sol,
    recover_guards explore functions (∅, memory) = Ok st ∧
    do_syscall st.2 2 [10485760; 0; 0] = Ok c_open ∧
    do_syscall st.2 0 [3; 10485760; 1024] = Ok c_read ∧
    do_syscall st.2 1 [1; 10485760] = Ok c_write ∧
    postprocess_chain c_open st.1 = Ok s_open ∧
    postprocess_chain c_read st.1 = Ok s_read ∧
    postprocess_chain c_write st.1 = Ok s_write ∧
    find moves_rax_to_rdx (find_gadgets st.2) = Some g ∧
    (∃ m ms, reg_moves g = m :: ms ∧ from_reg m = "rax"%string ∧ to_reg m = "rdx"%string) ∧
    st.1 !! addr g = Some sol ∧
    length (le_bytes 8 (addr g)) = 8%nat ∧
    le_value (le_bytes 8 (addr g)) = addr g ∧
    final = s_open ++ s_read ++ (le_bytes 8 (addr g) ++ sol) ++ s_write.
Proof.
  unfold get_gadgets. split.
  - intros H.
    apply bind_Ok_inv in H as (st & Hrec & H). cbn zeta in H.
    apply bind_Ok_inv in H as (c1 & Hc1 & H).
    apply bind_Ok_inv in H as (c2 & Hc2 & H).
    apply bind_Ok_inv in H as (c3 & Hc3 & H).
    apply assemble_Ok_iff in H
      as (s1 & s2 & s3 & g & sol & H1 & H2 & H3 & Hg & Hrange & Hsol & ->).
    exists st, c1, c2, c3, s1, s2, s3, g, sol.
    repeat (split; [done|]).
    split. { apply moves_rax_to_rdx_spec. by apply find_some in Hg as [_ Hg]. }
    split; [done|]. split; [apply le_bytes_length|].
    split; [|done]. rewrite le_value_le_bytes. apply Z.mod_small. 
    change (256 ^ Z.of_nat 8) with (2 ^ 64). lia.
  - intros (st & c1 & c2 & c3 & s1 & s2 & s3 & g & sol & Hrec & Hc1 & Hc2 & Hc3
            & H1 & H2 & H3 & Hg & _ & Hsol & _ & Hval & ->).
    rewrite Hrec, bind_Ok. cbn zeta. rewrite Hc1, bind_Ok, Hc2, bind_Ok, Hc3, bind_Ok.
    apply assemble_Ok_iff. exists s1, s2, s3, g, sol.
    repeat (split; [done|]). split; [|done].
    rewrite le_value_le_bytes in Hval. change (256 ^ Z.of_nat 8) with (2 ^ 64) in Hval.
    rewrite <- Hval. apply Z.mod_pos_bound. lia.
Qed.


Lemma final_payload_is_ordered_concatenation_witness :
  get_gadgets (ex_explore (ex_path 4100)) [ex_function] ex_memory
      (ex_find_gadgets [ex_pop_gadget; ex_round_mov_gadget]) (ex_do_syscall ex_round_chain)
    = Ok (ex_round_stitched ++ ex_round_stitched
            ++ (le_bytes 8 4097 ++ replicate 16 x41) ++ ex_round_stitched).
Proof.
  apply (proj2 (final_payload_is_ordered_concatenation (ex_explore (ex_path 4100))
                  [ex_function] ex_memory
                  (ex_find_gadgets [ex_pop_gadget; ex_round_mov_gadget])
                  (ex_do_syscall ex_round_chain) _)).
  exists ex_state, ex_round_chain, ex_round_chain, ex_round_chain,
    ex_round_stitched, ex_round_stitched, ex_round_stitched,
    ex_round_mov_gadget, (replicate 16 x41).
  split; [vm_compute; reflexivity|].
  do 3 (split; [reflexivity|]).
  do 3 (split; [vm_compute; reflexivity|]).
  split; [reflexivity|].
  split; [by exists ex_mov, []|].
  split; [vm_compute; reflexivity|].
  split; [reflexivity|]. split; [vm_compute; reflexivity|]. reflexivity.
Defined.

Lemma find_none_no_move gadgets :
  (∀ g m, g ∈ gadgets → m ∈ reg_moves g →
          ¬ (from_reg m = "rax"%string ∧ to_reg m = "rdx"%string)) →
  find moves_rax_to_rdx gadgets = None.
Proof.
  intros H. destruct (find moves_rax_to_rdx gadgets) as [g|] eqn:E; [|done].
  apply find_some in E as [Hin Hg]. apply list_elem_of_In in Hin.
  apply moves_rax_to_rdx_spec in Hg as (m & ms & Hm & Hf & Ht).
  exfalso. apply (H g m Hin); [|done]. rewrite Hm. apply elem_of_cons. by left.
Qed.

(** C10: the sanity check looks at the three synthesized chains only.  When
    they validate and stitch, a selected move gadget (the first gadget whose
    first register move is rax to rdx) whose 64-bit address has no guard
    solution makes the construction of the move chain raise a [KeyError]
    for that address, and when no discovered gadget has any rax-to-rdx move
    the search itself raises [StopIteration]; in both cases the validation
    had passed. *)
Theorem move_gadget_outside_validation
    (gs : gmap Z bytes) (c_open c_read c_write : RopChain)
    (gadgets : list RopGadget) (stitched : list bytes) :
  postprocess_chains gs [c_open; c_read; c_write] = Ok stitched →
  validate_chains gs [c_open; c_read; c_write] = Ok tt ∧
  (∀ g, find moves_rax_to_rdx gadgets = Some g → 0 ≤ addr g < 2 ^ 64 →
        gs !! addr g = None →
        assemble gs [c_open; c_read; c_write] gadgets = Raise (KeyError (addr g))) ∧
  ((∀ g m, g ∈ gadgets → m ∈ reg_moves g →
           ¬ (from_reg m = "rax"%string ∧ to_reg m = "rdx"%string)) →
   next_mov_gadget gadgets = Raise StopIteration ∧
   assemble gs [c_open; c_read; c_write] gadgets = Raise StopIteration).
Proof.
  intros Hst. pose proof (postprocess_chains_validate _ _ _ Hst) as Hv.
  split; [done|]. split.
  - intros g Hg Hrange Hn. unfold assemble.
    rewrite Hv, bind_Ok, Hst, bind_Ok.
    rewrite (proj2 (next_mov_gadget_Ok _ _) Hg), bind_Ok.
    rewrite (proj2 (pack_Q_Ok _ _) (conj Hrange eq_refl)), bind_Ok.
    by rewrite (getitem_None _ _ Hn).
  - intros Hno. apply find_none_no_move in Hno.
    assert (next_mov_gadget gadgets = Raise StopIteration) as Hnext
      by (unfold next_mov_gadget; by rewrite Hno).
    split; [done|]. unfold assemble.
    by rewrite Hv, bind_Ok, Hst, bind_Ok, Hnext.
Qed.

Lemma move_gadget_outside_validation_witness :
  (validate_chains ex_solutions [ex_chain; ex_chain; ex_chain] = Ok tt ∧
   assemble ex_solutions [ex_chain; ex_chain; ex_chain]
       [ex_pop_gadget; ex_unknown_mov_gadget; ex_mov_gadget]
     = Raise (KeyError 4160)) ∧
  (next_mov_gadget [ex_pop_gadget; ex_syscall_gadget] = Raise StopIteration ∧
   assemble ex_solutions [ex_chain; ex_chain; ex_chain] [ex_pop_gadget; ex_syscall_gadget]
     = Raise StopIteration).
Proof.
  assert (postprocess_chains ex_solutions [ex_chain; ex_chain; ex_chain]
          = Ok (replicate 3 (take 16 (ex_payload 32) ++ [x11; x22] ++ drop 16 (ex_payload 32))))
    as Hst by (vm_compute; reflexivity).
  split.
  - destruct (move_gadget_outside_validation ex_solutions ex_chain ex_chain ex_chain
                [ex_pop_gadget; ex_unknown_mov_gadget; ex_mov_gadget] _ Hst)
      as (Hv & Hkey & _).
    split; [exact Hv|].
    apply (Hkey ex_unknown_mov_gadget); [reflexivity|vm_compute; split; [discriminate|reflexivity]|
                                         vm_compute; reflexivity].
  - destruct (move_gadget_outside_validation ex_solutions ex_chain ex_chain ex_chain
                [ex_pop_gadget; ex_syscall_gadget] _ Hst)
      as (_ & _ & Hstop).
    apply Hstop. intros g m Hg Hm.
    apply elem_of_cons in Hg as [->|Hg]; [by apply elem_of_nil in Hm|].
    apply elem_of_cons in Hg as [->|Hg]; [by apply elem_of_nil in Hm|].
    by apply elem_of_nil in Hg.
Defined.

(** * Further properties *)

(** ** postprocess_chain: what every returned chain satisfies *)

Lemma slice_to_from {A} (s : list A) k : slice_to s k ++ slice_from s k = s.
Proof. unfold slice_to, slice_from. destruct (decide (0 ≤ k)); apply take_drop. Qed.

Lemma postprocess_gadget_Ok_inv gs acc p g acc' p' :
  postprocess_gadget gs (acc, p) g = Ok (acc', p') →
  ∃ sol front,
    gs !! addr g = Some sol ∧
    p = front ++ p' ∧
    acc' = acc ++ (slice_to p (stack_change g - 8) ++ sol
                   ++ take 8 (slice_from p (stack_change g - 8))) ∧
    front = slice_to p (stack_change g - 8) ++ take 8 (slice_from p (stack_change g - 8)).
Proof.
  unfold postprocess_gadget. intros H.
  apply bind_Ok_inv in H as (sol & Hsol & H). apply getitem_Ok in Hsol.
  rewrite (slice_to_nonneg (slice_from p _) 8) in H by lia.
  rewrite (slice_from_nonneg (slice_from p _) 8) in H by lia.
  change (Z.to_nat 8) with 8%nat in H. injection H as <- <-.
  eexists sol, _. split; [done|]. split; [|split; [|done]].
  - rewrite <- app_assoc, take_drop. by rewrite slice_to_from.
  - by rewrite <- !app_assoc.
Qed.

Lemma postprocess_loop_Ok_inv gs gl : ∀ acc p acc' p',
  postprocess_loop gs gl (acc, p) = Ok (acc', p') →
  ∃ injected consumed,
    acc' = acc ++ injected ∧ p = consumed ++ p' ∧
    consumed `sublist_of` injected ∧
    length injected = (length consumed + sum_solutions gs gl)%nat.
Proof.
  induction gl as [|g gl IH]; intros acc p acc' p' H.
  - cbn in H. injection H as <- <-. exists [], []. by rewrite app_nil_r.
  - cbn [postprocess_loop] in H.
    apply bind_Ok_inv in H as ([acc1 p1] & Hstep & Hrest).
    apply postprocess_gadget_Ok_inv in Hstep as (sol & front & Hsol & Hp & Hacc & Hfront).
    apply IH in Hrest as (inj & cons & -> & -> & Hsub & Hlen).
    exists ((slice_to p (stack_change g - 8) ++ sol
             ++ take 8 (slice_from p (stack_change g - 8))) ++ inj), (front ++ cons).
    split; [by rewrite Hacc, <- !app_assoc|].
    split; [by rewrite Hp, <- app_assoc|].
    split.
    + apply sublist_app; [|done]. rewrite Hfront.
      apply sublist_app; [done|]. by apply sublist_inserts_l.
    + change (sum_solutions gs (g :: gl))
        with (length (solution_of gs g) + sum_solutions gs gl)%nat.
      rewrite (solution_of_Some _ _ _ Hsol), Hfront.
      rewrite !length_app, Hlen. lia.
Qed.

Lemma postprocess_chain_Ok_inv chain gs stitched :
  postprocess_chain chain gs = Ok stitched →
  length stitched =
    (length (payload_str chain) + sum_solutions gs (_gadgets chain))%nat ∧
  payload_str chain `sublist_of` stitched.
Proof.
  unfold postprocess_chain. intros H.
  apply bind_Ok_inv in H as ([acc' p'] & Hrun & H). cbn [fst snd] in H.
  destruct (decide (length p' = 0%nat)) as [Hp'|]; [|done]. injection H as <-.
  apply length_zero_iff_nil in Hp' as ->.
  apply postprocess_loop_Ok_inv in Hrun as (inj & cons & -> & Hp & Hsub & Hlen).
  rewrite app_nil_r in Hp.
  rewrite slice_to_nonneg by lia. rewrite slice_from_nonneg in Hp by lia.
  change (Z.to_nat 8) with 8%nat in *.
  pose proof (take_drop 8 (payload_str chain)) as Hpp. rewrite Hp in Hpp.
  pose proof (f_equal length Hpp) as Hl. rewrite length_app in Hl.
  split; [rewrite length_app; lia|].
  rewrite <- Hpp at 1. by apply sublist_app.
Qed.

(** X1: whenever [postprocess_chain] returns, whatever the stack changes
    are, every gadget of the chain has a guard solution, the stitched chain
    is as long as the raw payload plus the injected solutions, and the bytes
    of the raw payload occur in it, in order. *)
Theorem postprocess_chain_conserves_payload
    (chain : RopChain) (gs : gmap Z bytes) (stitched : bytes) :
  postprocess_chain chain gs = Ok stitched →
  Forall (fun g => is_Some (gs !! addr g)) (_gadgets chain) ∧
  length stitched =
    (length (payload_str chain) + sum_solutions gs (_gadgets chain))%nat ∧
  payload_str chain `sublist_of` stitched.
Proof.
  intros H. split; [by eapply postprocess_chain_Ok_solved|].
  by apply postprocess_chain_Ok_inv.
Qed.

Lemma postprocess_chain_conserves_payload_witness :
  Forall (fun g => is_Some (ex_solutions !! addr g)) (_gadgets ex_short_chain) ∧
  length [x00; x01; x02; x03; x04; x05; x06; x07; x08; x09; x11; x22] =
    (length (payload_str ex_short_chain)
     + sum_solutions ex_solutions (_gadgets ex_short_chain))%nat ∧
  payload_str ex_short_chain
    `sublist_of` [x00; x01; x02; x03; x04; x05; x06; x07; x08; x09; x11; x22].
Proof.
  apply (postprocess_chain_conserves_payload ex_short_chain ex_solutions).
  vm_compute. reflexivity.
Defined.

(** *** When the stitcher returns *)

Lemma postprocess_loop_short gs gl : ∀ acc p,
  Forall (fun g => 8 ≤ stack_change g) gl →
  Forall (fun g => is_Some (gs !! addr g)) gl →
  Z.of_nat (length p) ≤ sum_stack_change gl →
  ∃ acc', postprocess_loop gs gl (acc, p) = Ok (acc', []).
Proof.
  induction gl as [|g gl IH]; intros acc p Hsc Hsol Hlen.
  - cbn in Hlen. destruct p; [|cbn in Hlen; lia]. by exists acc.
  - apply Forall_cons in Hsc as [Hg Hsc]. apply Forall_cons in Hsol as [[sol Hs] Hsol].
    pose proof (sum_stack_change_nonneg gl Hsc) as Hnn.
    cbn [sum_stack_change foldr] in Hlen. fold (sum_stack_change gl) in Hlen.
    cbn [postprocess_loop]. rewrite (postprocess_gadget_eq _ _ _ _ sol) by done.
    rewrite bind_Ok. apply IH; [done|done|]. rewrite !length_drop. lia.
Qed.

(** X2: for a chain whose gadgets all consume at least their address slot
    and all have a guard solution, [postprocess_chain] returns exactly when
    the payload has at most 8 bytes plus the sum of the stack changes: a
    payload that is too short is stitched without complaint. *)
Theorem postprocess_chain_returns_iff (chain : RopChain) (gs : gmap Z bytes) :
  Forall (fun g => 8 ≤ stack_change g) (_gadgets chain) →
  Forall (fun g => is_Some (gs !! addr g)) (_gadgets chain) →
  (∃ stitched, postprocess_chain chain gs = Ok stitched) ↔
  Z.of_nat (length (payload_str chain)) ≤ 8 + sum_stack_change (_gadgets chain).
Proof.
  intros Hsc Hsol. unfold postprocess_chain.
  rewrite slice_to_nonneg, slice_from_nonneg by lia. change (Z.to_nat 8) with 8%nat.
  split.
  - intros [stitched H].
    destruct (postprocess_loop_remainder gs (_gadgets chain)
                (take 8 (payload_str chain)) (drop 8 (payload_str chain)) Hsc)
      as [(acc' & p' & Hrun & Hle)|(g & Hin & Hnone & Hrun)].
    + rewrite Hrun, bind_Ok in H. cbn [fst snd] in H.
      destruct (decide (length p' = 0%nat)) as [Hp'|]; [|done].
      rewrite length_drop in Hle. lia.
    + rewrite Forall_forall in Hsol. destruct (Hsol g Hin) as [v Hv]. congruence.
  - intros Hlen.
    destruct (postprocess_loop_short gs (_gadgets chain)
                (take 8 (payload_str chain)) (drop 8 (payload_str chain)) Hsc Hsol)
      as [acc' Hrun].
    { rewrite length_drop. pose proof (sum_stack_change_nonneg _ Hsc). lia. }
    exists acc'. by rewrite Hrun.
Qed.

Lemma postprocess_chain_returns_iff_witness :
  (∃ stitched, postprocess_chain ex_short_chain ex_solutions = Ok stitched) ↔
  Z.of_nat (length (payload_str ex_short_chain))
    ≤ 8 + sum_stack_change (_gadgets ex_short_chain).
Proof.
  apply (postprocess_chain_returns_iff ex_short_chain ex_solutions).
  - repeat constructor; vm_compute; discriminate.
  - repeat constructor; vm_compute; eexists; reflexivity.
Defined.

(** *** A gadget without a solution *)

Lemma postprocess_loop_app gs gl1 : ∀ gl2 st,
  postprocess_loop gs (gl1 ++ gl2) st =
    postprocess_loop gs gl1 st ≫= postprocess_loop gs gl2.
Proof.
  induction gl1 as [|g gl1 IH]; intros gl2 st; [done|].
  cbn [app postprocess_loop].
  destruct (postprocess_gadget gs st g) as [st'|e]; [|done].
  rewrite !bind_Ok. apply IH.
Qed.

Lemma postprocess_loop_solved gs gl : ∀ st,
  Forall (fun g => is_Some (gs !! addr g)) gl →
  ∃ st', postprocess_loop gs gl st = Ok st'.
Proof.
  induction gl as [|g gl IH]; intros st Hsol; [by exists st|].
  apply Forall_cons in Hsol as [[sol Hs] Hsol]. destruct st as [acc p].
  cbn [postprocess_loop]. unfold postprocess_gadget.
  rewrite (getitem_Some _ _ _ Hs), !bind_Ok. by apply IH.
Qed.

(** X3: the stitcher raises [KeyError] for the first gadget in chain order
    whose address has no guard solution, whatever the payload and the stack
    changes are. *)
Theorem postprocess_chain_first_unsolved
    (chain : RopChain) (gs : gmap Z bytes)
    (before after : list RopGadget) (g : RopGadget) :
  _gadgets chain = before ++ g :: after →
  Forall (fun g' => is_Some (gs !! addr g')) before →
  gs !! addr g = None →
  postprocess_chain chain gs = Raise (KeyError (addr g)).
Proof.
  intros Hg Hbefore Hnone. unfold postprocess_chain. rewrite Hg.
  rewrite postprocess_loop_app.
  destruct (postprocess_loop_solved gs before
              (slice_to (payload_str chain) 8, slice_from (payload_str chain) 8) Hbefore)
    as [st' ->].
  rewrite bind_Ok. cbn [postprocess_loop].
  by rewrite (postprocess_gadget_unsolved _ _ _ Hnone).
Qed.

Lemma postprocess_chain_first_unsolved_witness :
  postprocess_chain ex_orphan_chain ex_solutions = Raise (KeyError 4144).
Proof.
  apply (postprocess_chain_first_unsolved ex_orphan_chain ex_solutions
           [ex_pop_gadget] [] ex_unknown_gadget).
  - reflexivity.
  - repeat constructor; vm_compute; eexists; reflexivity.
  - vm_compute. reflexivity.
Defined.

(** *** Empty solutions *)

Lemma sum_solutions_empty gs gl :
  Forall (fun g => gs !! addr g = Some []) gl → sum_solutions gs gl = 0%nat.
Proof.
  induction 1 as [|g gl Hg _ IH]; [done|].
  change (sum_solutions gs (g :: gl))
    with (length (solution_of gs g) + sum_solutions gs gl)%nat.
  by rewrite (solution_of_Some _ _ _ Hg), IH.
Qed.

Lemma sublist_same_length {A} (l k : list A) :
  l `sublist_of` k → length k = length l → l = k.
Proof.
  induction 1 as [|x l k _ IH|x l k Hs _]; intros Hlen; [done| |].
  - f_equal. apply IH. cbn in Hlen. lia.
  - apply sublist_length in Hs. cbn in Hlen. lia.
Qed.

(** X4: when every gadget of the chain has the empty string as its guard
    solution, a returned stitched chain is the raw payload itself. *)
Theorem postprocess_chain_empty_solutions
    (chain : RopChain) (gs : gmap Z bytes) (stitched : bytes) :
  Forall (fun g => gs !! addr g = Some []) (_gadgets chain) →
  postprocess_chain chain gs = Ok stitched →
  stitched = payload_str chain.
Proof.
  intros Hempty H. apply postprocess_chain_Ok_inv in H as [Hlen Hsub].
  rewrite (sum_solutions_empty _ _ Hempty), Nat.add_0_r in Hlen.
  symmetry. by apply sublist_same_length.
Qed.

Lemma postprocess_chain_empty_solutions_witness :
  ex_payload 16 = payload_str ex_plain_chain.
Proof.
  apply (postprocess_chain_empty_solutions ex_plain_chain ex_solutions (ex_payload 16)).
  - repeat constructor.
  - vm_compute. reflexivity.
Defined.

(** ** make_elf: what the sanitized page never contains *)

Lemma no_halt_pair_traps k : ∀ Y,
  no_halt_pair false (replicate k xcc ++ Y) = no_halt_pair false Y.
Proof. induction k as [|k IH]; intros Y; [done|]. cbn [replicate app no_halt_pair]. apply IH. Qed.

Lemma no_halt_pair_after_other b Y :
  starts_with xf4 Y = false → no_halt_pair b Y = no_halt_pair false Y.
Proof. destruct Y as [|c Y]; [done|]. cbn. intros ->. by rewrite andb_false_r. Qed.

Lemma no_halt_pair_run_image n Y :
  starts_with xf4 Y = false → no_halt_pair false Y = true →
  no_halt_pair false (run_image false n ++ Y) = true.
Proof.
  intros HY Hpair. unfold run_image. destruct (n mod 19 =? 1)%nat.
  - rewrite <- app_assoc, no_halt_pair_traps. cbn [andb app no_halt_pair negb].
    by rewrite (no_halt_pair_after_other _ _ HY).
  - by rewrite no_halt_pair_traps.
Qed.

Lemma halt_loop_no_halt_pair s :
  no_halt_pair false (foldl replace_halt_run s halt_run_lengths) = true.
Proof.
  pose proof halt_run_lengths_positive as HL.
  remember (length s) as m eqn:Hm. revert s Hm.
  induction m as [m IH] using lt_wf_ind. intros s Hm.
  destruct (halt_span s) as (n & post & -> & Hpost).
  rewrite (halt_loop_app_r _ _ _ HL Hpost), halt_loop_halts.
  destruct post as [|d post].
  - rewrite halt_loop_nil by done. by apply no_halt_pair_run_image.
  - cbn [starts_with] in Hpost.
    change (d :: post) with ([] ++ d :: post).
    rewrite halt_loop_split by (done || by apply byte_eqb_neq).
    rewrite halt_loop_nil by done. cbn [app].
    apply no_halt_pair_run_image; [done|].
    cbn [no_halt_pair andb negb]. rewrite Hpost.
    eapply IH; [|done]. subst m. rewrite length_app. cbn. lia.
Qed.

Lemma no_halt_after_weaken s : no_halt_after true s = true → no_halt_after false s = true.
Proof. destruct s as [|c s]; [done|]. cbn. by intros [_ ->]%andb_true_iff. Qed.

Lemma after_ret_pass_no_halt_after L : ∀ bF bR,
  no_halt_pair bF L = true →
  no_halt_after (bF || bR) (after_ret_pass bR L) = true.
Proof.
  induction L as [|c L IH]; intros bF bR H; [done|].
  cbn [no_halt_pair] in H. apply andb_true_iff in H as [Hhead Htail].
  specialize (IH _ (Byte.eqb c xc3) Htail).
  cbn [after_ret_pass no_halt_after].
  destruct (Byte.eqb c xf4) eqn:E.
  - apply byte_eqb_eq in E as ->.
    change (Byte.eqb xf4 xc3) with false in *. change (Byte.eqb xf4 xf4) with true in *.
    destruct bF; [done|]. destruct bR; cbn.
    + change (Byte.eqb xcc xf4) with false. change (Byte.eqb xcc xc3) with false.
      cbn. by apply no_halt_after_weaken.
    + change (Byte.eqb xf4 xf4) with true. change (Byte.eqb xf4 xc3) with false. done.
  - rewrite andb_false_r, E, andb_false_r. done.
Qed.

Lemma substitute_halts_no_halt_after s : no_halt_after false (substitute_halts s) = true.
Proof.
  unfold substitute_halts. rewrite replace_ret_halt.
  apply (after_ret_pass_no_halt_after _ false false), halt_loop_no_halt_pair.
Qed.

Lemma no_halt_after_traps k b : no_halt_after b (replicate k xcc) = true.
Proof.
  revert b. induction k as [|k IH]; intros b; [done|]. cbn [replicate no_halt_after].
  change (Byte.eqb xcc xf4) with false. change (Byte.eqb xcc xc3) with false.
  rewrite andb_false_r. apply IH.
Qed.

Lemma no_halt_after_pad s k : ∀ b,
  no_halt_after b (s ++ replicate k xcc) = no_halt_after b s.
Proof.
  induction s as [|c s IH]; intros b.
  - apply no_halt_after_traps.
  - cbn [app no_halt_after]. by rewrite IH.
Qed.

Lemma sanitize_no_halt_after s : no_halt_after false (sanitize s) = true.
Proof.
  unfold sanitize, ljust. rewrite no_halt_after_pad. apply substitute_halts_no_halt_after.
Qed.

Lemma no_halt_after_lookup s : ∀ b i,
  no_halt_after b s = true → s !! S i = Some xf4 →
  s !! i ≠ Some xf4 ∧ s !! i ≠ Some xc3.
Proof.
  induction s as [|c s IH]; intros b i H Hi; [done|].
  cbn [no_halt_after] in H. apply andb_true_iff in H as [_ H].
  destruct i as [|i].
  - destruct s as [|d s]; [done|]. cbn in Hi. injection Hi as ->.
    cbn [no_halt_after] in H. change (Byte.eqb xf4 xf4) with true in H.
    rewrite andb_true_r in H. apply andb_true_iff in H as [H _].
    apply negb_true_iff, orb_false_iff in H as [H1 H2].
    apply byte_eqb_neq in H1, H2. cbn. split; congruence.
  - cbn. by eapply IH.
Qed.

(** X5: in the sanitized page no halt byte stands directly after a halt
    byte or after a return byte, whatever the decoded gadget bytes are. *)
Theorem sanitize_no_halt_after_halt_or_ret (decoded : bytes) (i : nat) :
  sanitize decoded !! S i = Some xf4 →
  sanitize decoded !! i ≠ Some xf4 ∧ sanitize decoded !! i ≠ Some xc3.
Proof. apply (no_halt_after_lookup _ false), sanitize_no_halt_after. Qed.

Lemma sanitize_no_halt_after_halt_or_ret_witness :
  sanitize (replicate 20 xf4) !! 18%nat ≠ Some xf4
  ∧ sanitize (replicate 20 xf4) !! 18%nat ≠ Some xc3.
Proof.
  apply (sanitize_no_halt_after_halt_or_ret (replicate 20 xf4) 18).
  vm_compute. reflexivity.
Defined.

(** *** Sanitizing twice *)

Lemma no_halt_after_pair s : ∀ b bF,
  no_halt_after b s = true → (bF = true → b = true) → no_halt_pair bF s = true.
Proof.
  induction s as [|c s IH]; intros b bF H Himp; [done|].
  cbn [no_halt_after] in H. apply andb_true_iff in H as [Hhead Htail].
  cbn [no_halt_pair]. apply andb_true_iff. split.
  - destruct bF; [|done]. by rewrite Himp in Hhead.
  - eapply IH; [done|]. intros ->. done.
Qed.

Lemma replace_halt_run_no_pair i s : ∀ b,
  no_halt_pair b s = true → replace_halt_run s (S (S i)) = s.
Proof.
  induction s as [|c s IH]; intros b H; [done|].
  cbn [no_halt_pair] in H. apply andb_true_iff in H as [_ H].
  unfold replace_halt_run in *. cbn [replicate] in *. rewrite replace_cons.
  destruct (is_prefix (xf4 :: xf4 :: replicate i xf4) (c :: s)) eqn:Hp.
  - apply is_prefix_spec in Hp as [rest Hp]. cbn in Hp. injection Hp as -> ->.
    cbn in H. done.
  - f_equal. by eapply IH.
Qed.

Lemma halt_loop_no_pair L : ∀ s b,
  Forall (fun i => (2 ≤ i)%nat) L → no_halt_pair b s = true →
  foldl replace_halt_run s L = s.
Proof.
  induction L as [|i L IH]; intros s b HL H; [done|].
  apply Forall_cons in HL as [Hi HL]. destruct i as [|[|i]]; [lia|lia|].
  cbn [foldl]. rewrite (replace_halt_run_no_pair _ _ _ H). by eapply IH.
Qed.

Lemma after_ret_pass_no_halt_id s : ∀ b bR,
  no_halt_after b s = true → (bR = true → b = true) → after_ret_pass bR s = s.
Proof.
  induction s as [|c s IH]; intros b bR H Himp; [done|].
  cbn [no_halt_after] in H. apply andb_true_iff in H as [Hhead Htail].
  cbn [after_ret_pass]. f_equal.
  - destruct bR; [|done]. rewrite Himp in Hhead by done.
    cbn in Hhead. apply negb_true_iff in Hhead. by rewrite Hhead.
  - eapply IH; [done|]. intros ->. apply orb_true_r.
Qed.

Lemma halt_run_lengths_ge_two : Forall (fun i => (2 ≤ i)%nat) halt_run_lengths.
Proof. vm_compute. repeat constructor. Qed.

Lemma substitute_halts_fixed s :
  no_halt_after false s = true → substitute_halts s = s.
Proof.
  intros H. unfold substitute_halts. rewrite replace_ret_halt.
  rewrite (halt_loop_no_pair _ _ false halt_run_lengths_ge_two)
    by (by eapply no_halt_after_pair).
  by eapply after_ret_pass_no_halt_id.
Qed.

Lemma sanitize_length s : length (sanitize s) = Nat.max 4096 (length s).
Proof.
  unfold sanitize, ljust.
  rewrite length_app, length_replicate.
  rewrite <- (Forall2_length _ _ _ (substitute_halts_rel s)). lia.
Qed.

(** X6: sanitizing is idempotent: a page that went through the
    substitutions and the padding is left as it is by a second pass. *)
Theorem sanitize_idempotent (decoded : bytes) :
  sanitize (sanitize decoded) = sanitize decoded.
Proof.
  pose proof (sanitize_length decoded) as Hlen.
  unfold sanitize at 1. unfold ljust.
  rewrite (substitute_halts_fixed _ (sanitize_no_halt_after decoded)).
  replace (4096 - length (sanitize decoded))%nat with 0%nat by lia.
  apply app_nil_r.
Qed.

(** X7: the sanitized string has 4096 bytes or the length of the decoded
    string, whichever is larger: gadget bytes beyond one page are neither
    cut off nor padded, and up to the length of the input every byte is kept
    or is a halt byte turned into a trap byte. *)
Theorem sanitize_length_and_bytes (decoded : bytes) :
  length (sanitize decoded) = Nat.max 4096 (length decoded) ∧
  Forall2 halt_to_trap decoded (take (length decoded) (sanitize decoded)) ∧
  ((4096 ≤ length decoded)%nat → sanitize decoded = substitute_halts decoded).
Proof.
  split; [apply sanitize_length|].
  pose proof (substitute_halts_rel decoded) as Hrel.
  pose proof (Forall2_length _ _ _ Hrel) as Hl.
  unfold sanitize, ljust. split.
  - rewrite take_app_length' by done. done.
  - intros Hbig. replace (4096 - length (substitute_halts decoded))%nat with 0%nat by lia.
    apply app_nil_r.
Qed.

(** ** make_elf: embedding the page into the template *)

Lemma replace_no_occurrence o old new s :
  ¬ occurs_in (o :: old) s → replace (o :: old) new s = s.
Proof.
  induction s as [|c s IH]; intros Hno; [done|].
  rewrite replace_cons.
  destruct (is_prefix (o :: old) (c :: s)) eqn:Hp.
  - apply is_prefix_spec in Hp as [rest Hp]. exfalso. apply Hno. by exists [], rest.
  - f_equal. apply IH. intros (pre & post & ->). apply Hno. by exists (c :: pre), post.
Qed.

Lemma replace_absent old new s :
  old ≠ [] → ¬ occurs_in old s → replace old new s = s.
Proof. destruct old as [|o old]; [done|]. intros _. apply replace_no_occurrence. Qed.

Lemma sled_not_empty : replicate 4096 x90 ≠ [].
Proof. intros H. apply (f_equal length) in H. by rewrite length_replicate in H. Qed.

Lemma is_prefix_run_app a i : ∀ A c B,
  c ≠ a →
  is_prefix (replicate (S i) a) (A ++ c :: B) = is_prefix (replicate (S i) a) A.
Proof.
  induction i as [|i IH]; intros A c B Hc.
  - destruct A as [|x A]; cbn.
    + rewrite andb_true_r. apply byte_eqb_neq. congruence.
    + done.
  - destruct A as [|x A].
    + cbn. apply andb_false_iff. left. apply byte_eqb_neq. congruence.
    + change (replicate (S (S i)) a) with (a :: replicate (S i) a).
      cbn [app is_prefix]. by rewrite IH.
Qed.

Lemma replace_run_split a i new A c B :
  c ≠ a →
  replace (replicate (S i) a) new (A ++ c :: B) =
    replace (replicate (S i) a) new A ++ c :: replace (replicate (S i) a) new B.
Proof.
  intros Hc. remember (length A) as n eqn:Hn. revert A Hn.
  induction n as [n IH] using lt_wf_ind. intros A Hn.
  cbn [replicate] in *.
  destruct A as [|x A].
  - cbn [app]. rewrite replace_cons.
    assert (is_prefix (a :: replicate i a) (c :: B) = false) as ->; [|done].
    cbn. apply andb_false_iff. left. apply byte_eqb_neq. congruence.
  - cbn [app]. rewrite !replace_cons.
    change (a :: replicate i a) with (replicate (S i) a).
    change (x :: A ++ c :: B) with ((x :: A) ++ c :: B).
    rewrite is_prefix_run_app by done.
    destruct (is_prefix (replicate (S i) a) (x :: A)) eqn:Hp.
    + pose proof (is_prefix_length _ _ Hp) as Hlen.
      rewrite length_replicate in Hlen |- *. cbn in Hlen.
      rewrite drop_app_le by lia. cbn [replicate].
      rewrite (IH (length (drop i A))); [| |done].
      * by rewrite <- app_assoc.
      * subst n. rewrite length_drop. cbn. lia.
    + cbn [replicate]. rewrite (IH (length A)); [done| |done]. subst n. cbn. lia.
Qed.

Lemma replace_at_match o old new rest :
  replace (o :: old) new ((o :: old) ++ rest) = new ++ replace (o :: old) new rest.
Proof.
  cbn [app]. rewrite replace_cons.
  assert (is_prefix (o :: old) (o :: old ++ rest) = true) as ->.
  { apply is_prefix_spec. by exists rest. }
  by rewrite drop_app_length.
Qed.

Lemma replace_run_after a i new pre rest :
  ends_with a pre = false →
  replace (replicate (S i) a) new (pre ++ replicate (S i) a ++ rest) =
    replace (replicate (S i) a) new pre ++ new ++ replace (replicate (S i) a) new rest.
Proof.
  intros Hpre. destruct pre as [|c pre _] using rev_ind.
  - cbn [app]. change (replace (replicate (S i) a) new []) with (@nil byte).
    cbn [app replicate]. apply (replace_at_match a (replicate i a)).
  - rewrite ends_with_snoc in Hpre. apply byte_eqb_neq in Hpre.
    rewrite <- app_assoc. cbn [app].
    rewrite !replace_run_split by done.
    change (replace (replicate (S i) a) new []) with (@nil byte).
    rewrite <- app_assoc. cbn [app]. do 2 f_equal.
    cbn [replicate]. apply (replace_at_match a (replicate i a)).
Qed.

(** X8: a template that nowhere contains 4096 consecutive NOP bytes comes
    out of [make_elf] unchanged: the gadget page is not embedded and nothing
    is reported. *)
Theorem make_elf_template_without_sled (decoded the_nops : bytes) :
  ¬ occurs_in (replicate 4096 x90) the_nops →
  make_elf decoded the_nops = the_nops.
Proof. intros H. unfold make_elf. by apply replace_absent; [apply sled_not_empty|]. Qed.

Lemma make_elf_template_without_sled_witness :
  make_elf ex_decoded [x7f; x45; x4c; x46] = [x7f; x45; x4c; x46].
Proof.
  apply (make_elf_template_without_sled ex_decoded [x7f; x45; x4c; x46]).
  intros (pre & post & H). apply (f_equal length) in H.
  rewrite !length_app, length_replicate in H. cbn [length] in H. lia.
Defined.

(** X9: when the template is a prefix that does not end in a NOP byte, a
    sled of 4096 NOP bytes and a suffix, and neither the prefix nor the
    suffix contains a further sled, [make_elf] puts the sanitized page in
    the place of the sled and keeps prefix and suffix; for at most 4096
    decoded bytes the file keeps the size of the template. *)
Theorem make_elf_embeds_page (decoded pre post : bytes) :
  ends_with x90 pre = false →
  ¬ occurs_in (replicate 4096 x90) pre →
  ¬ occurs_in (replicate 4096 x90) post →
  make_elf decoded (pre ++ replicate 4096 x90 ++ post)
    = pre ++ sanitize decoded ++ post ∧
  ((length decoded ≤ 4096)%nat →
   length (make_elf decoded (pre ++ replicate 4096 x90 ++ post))
     = length (pre ++ replicate 4096 x90 ++ post)).
Proof.
  intros Hend Hpre Hpost.
  assert (make_elf decoded (pre ++ replicate 4096 x90 ++ post)
          = pre ++ sanitize decoded ++ post) as Heq.
  { unfold make_elf. rewrite (replace_run_after x90 4095) by done.
    change (replicate (S 4095) x90) with (replicate 4096 x90).
    by rewrite !replace_absent by (done || apply sled_not_empty). }
  split; [done|]. intros Hlen.
  rewrite Heq, !length_app, sanitize_length, length_replicate. lia.
Qed.

Lemma make_elf_embeds_page_witness :
  make_elf ex_decoded ex_template
    = [x7f; x45; x4c; x46] ++ sanitize ex_decoded ++ [xc3; x90] ∧
  ((length ex_decoded ≤ 4096)%nat →
   length (make_elf ex_decoded ex_template) = length ex_template).
Proof.
  apply (make_elf_embeds_page ex_decoded [x7f; x45; x4c; x46] [xc3; x90]).
  - reflexivity.
  - intros (pre & post & H). apply (f_equal length) in H.
    rewrite !length_app, length_replicate in H. cbn [length] in H. lia.
  - intros (pre & post & H). apply (f_equal length) in H.
    rewrite !length_app, length_replicate in H. cbn [length] in H. lia.
Defined.

(** ** Guard recovery: the guard variables *)

Lemma guard_leaves_symbolic gds :
  Forall (fun a => symbolic a = true) (guard_leaves gds).
Proof.
  induction gds as [|gd gds IH]; [constructor|]. cbn [guard_leaves].
  destruct (guard_symbolic gd); [|done].
  destruct (find _ _) as [a|] eqn:E; [|constructor].
  constructor; [|done]. by apply find_some in E as [_ E].
Qed.

Lemma decorate_symbolic vs :
  Forall (fun a => symbolic a = true) vs →
  ∃ kvs, decorate vs = Ok kvs ∧ kvs.*2 = vs ∧ Forall (fun kv => kv.2 = BVS kv.1) kvs.
Proof.
  induction 1 as [|a vs Ha _ (kvs & Hd & Hsnd & Hall)].
  - by exists [].
  - destruct a as [|n]; [done|]. exists ((n, BVS n) :: kvs).
    cbn [decorate sort_key]. rewrite bind_Ok, Hd, bind_Ok.
    split; [done|]. split; [cbn; by rewrite Hsnd|]. by constructor.
Qed.

Lemma insert_by_key_perm kv l : insert_by_key kv l ≡ₚ kv :: l.
Proof.
  induction l as [|kv' l IH]; [done|]. cbn [insert_by_key].
  destruct (String.leb kv.1 kv'.1); [done|]. rewrite IH. apply Permutation_swap.
Qed.

Lemma insertion_sort_perm kvs : foldr insert_by_key [] kvs ≡ₚ kvs.
Proof.
  induction kvs as [|kv kvs IH]; [done|]. cbn [foldr].
  by rewrite insert_by_key_perm, IH.
Qed.

Lemma insert_by_key_sorted kv l :
  Sorted (fun x y : string * AST => String.leb x.1 y.1 = true) l →
  Sorted (fun x y : string * AST => String.leb x.1 y.1 = true) (insert_by_key kv l).
Proof.
  induction 1 as [|kv' l Hs IH Hhd]; [by repeat constructor|].
  cbn [insert_by_key]. destruct (String.leb kv.1 kv'.1) eqn:E.
  - constructor; [by constructor|]. by constructor.
  - constructor; [done|].
    assert (String.leb kv'.1 kv.1 = true) as Hle.
    { destruct (String.leb_total kv.1 kv'.1); congruence. }
    destruct Hhd as [|kv'' l' Hle']; cbn [insert_by_key].
    + by constructor.
    + destruct (String.leb kv.1 kv''.1); by constructor.
Qed.

Lemma insertion_sort_sorted kvs :
  Sorted (fun x y : string * AST => String.leb x.1 y.1 = true)
    (foldr insert_by_key [] kvs).
Proof.
  induction kvs as [|kv kvs IH]; [constructor|]. by apply insert_by_key_sorted.
Qed.

Lemma sorted_names kvs :
  Forall (fun kv : string * AST => kv.2 = BVS kv.1) kvs →
  Sorted (fun x y : string * AST => String.leb x.1 y.1 = true) kvs →
  Sorted name_le kvs.*2.
Proof.
  intros Hall Hs. induction Hs as [|kv l Hs IH Hhd]; [constructor|].
  apply Forall_cons in Hall as [Hkv Hall]. cbn [fmap list_fmap].
  constructor; [by apply IH|].
  destruct Hhd as [|kv' l' Hle]; [constructor|].
  apply Forall_cons in Hall as [Hkv' _]. cbn [fmap list_fmap]. constructor.
  rewrite Hkv, Hkv'. done.
Qed.

(** X10: computing the guard variables never raises: the leaves handed to
    [sorted] are all symbolic, so every sort key exists.  The result holds
    the same leaves as the generator produced (none is dropped or merged)
    in nondecreasing order of their names. *)
Theorem symbolic_guard_guys_sorted (good_path : Path) :
  ∃ guys,
    symbolic_guard_guys good_path = Ok guys ∧
    guys ≡ₚ guard_leaves (guards good_path) ∧
    Forall (fun a => symbolic a = true) guys ∧
    Sorted name_le guys.
Proof.
  unfold symbolic_guard_guys, sorted_by_key.
  pose proof (guard_leaves_symbolic (guards good_path)) as Hsym.
  destruct (decorate_symbolic _ Hsym) as (kvs & -> & Hsnd & Hall).
  rewrite bind_Ok. eexists. split; [done|].
  pose proof (insertion_sort_perm kvs) as Hperm.
  assert ((foldr insert_by_key [] kvs).*2 ≡ₚ guard_leaves (guards good_path)) as Hp.
  { rewrite <- Hsnd. by apply fmap_Permutation. }
  split; [done|]. split.
  - by rewrite Hp.
  - apply sorted_names; [|apply insertion_sort_sorted]. by rewrite Hperm.
Qed.

(** ** Guard recovery: when the boundary exists *)

Lemma elem_of_foldl_union (s : gset string) rest v :
  v ∈ foldl (∪) s rest ↔ v ∈ s ∨ ∃ t, t ∈ rest ∧ v ∈ t.
Proof.
  revert s. induction rest as [|t rest IH]; intros s; cbn [foldl].
  - split; [by left|]. intros [?|(t & Ht & _)]; [done|]. by apply elem_of_nil in Ht.
  - rewrite IH, elem_of_union. split.
    + intros [[?|?]|(t' & Ht' & ?)]; [by left| |].
      * right. exists t. split; [apply elem_of_cons; by left|done].
      * right. exists t'. split; [apply elem_of_cons; by right|done].
    + intros [?|(t' & Ht' & ?)]; [by left; left|].
      apply elem_of_cons in Ht' as [->|Ht']; [by left; right|].
      right. by exists t'.
Qed.

Lemma reads_guard_input_spec guys act :
  guys ≠ [] →
  ∃ b, reads_guard_input guys act = Ok b ∧ (b = true ↔ touches guys act).
Proof.
  intros Hguys. unfold reads_guard_input, touches.
  destruct (is_mem_read act).
  - destruct guys as [|g0 guys]; [done|]. cbn [fmap list_fmap frozenset_union].
    rewrite bind_Ok. eexists. split; [done|].
    rewrite bool_decide_eq_true. split.
    + intros Hne. apply set_choose_L in Hne as [v Hv].
      apply elem_of_intersection in Hv as [Hd Hu].
      apply elem_of_foldl_union in Hu as [Hu|(t & Ht & Hu)].
      * split; [done|]. exists g0, v. split; [apply elem_of_cons; by left|done].
      * apply list_elem_of_fmap in Ht as (g & -> & Hg).
        split; [done|]. exists g, v. split; [apply elem_of_cons; by right|done].
    + intros (_ & g & v & Hg & Hv & Hd) Hempty.
      assert (v ∈ data_variables act ∩ foldl (∪) (variables g0) (variables <$> guys))
        as Hin.
      { apply elem_of_intersection. split; [done|]. apply elem_of_foldl_union.
        apply elem_of_cons in Hg as [->|Hg]; [by left|].
        right. exists (variables g). split; [|done]. by apply list_elem_of_fmap_2. }
      rewrite Hempty in Hin. by apply not_elem_of_empty in Hin.
  - exists false. split; [done|]. split; [done|]. by intros [? _].
Qed.

Lemma check_addrs_total guys acts :
  guys ≠ [] → ∃ l, check_addrs guys acts = Ok l.
Proof.
  intros Hguys. induction acts as [|a acts (l & Hl)]; [by exists []|].
  destruct (reads_guard_input_spec guys a Hguys) as (b & Hb & _).
  cbn [check_addrs]. rewrite Hb, bind_Ok, Hl, bind_Ok. by eexists.
Qed.

Lemma start_of_checks_spec guys acts :
  guys ≠ [] →
  ((∃ act, act ∈ acts ∧ touches guys act) ∧ ∃ start, start_of_checks guys acts = Ok start)
  ∨ (¬ (∃ act, act ∈ acts ∧ touches guys act) ∧
     start_of_checks guys acts = Raise ValueError).
Proof.
  intros Hguys. unfold start_of_checks.
  destruct (check_addrs_total guys acts Hguys) as (l & Hl). rewrite Hl, bind_Ok.
  pose proof (check_addrs_spec _ _ _ Hl) as Hspec.
  destruct l as [|x l].
  - right. split; [|done]. intros (act & Hin & Ht).
    destruct (reads_guard_input_spec guys act Hguys) as (b & Hb & Hbt).
    apply Hbt in Ht as ->.
    assert (ins_addr act ∈ ([] : list Z)) as Hmem by (apply Hspec; by exists act).
    by apply elem_of_nil in Hmem.
  - left. split; [|by eexists].
    destruct (proj1 (Hspec x)) as (act & Hin & _ & Hr); [apply elem_of_cons; by left|].
    exists act. split; [done|].
    destruct (reads_guard_input_spec guys act Hguys) as (b & Hb & Hbt).
    apply Hbt. congruence.
Qed.

(** X11: for a function with more than one block whose good path yields at
    least one guard variable, the loop body succeeds exactly when some
    recorded memory read shares a variable with a guard variable; when
    there is none, [min] gets an empty sequence and the body raises
    [ValueError]. *)
Theorem recover_function_needs_guard_read
    (explore : gmap Z byte → Z → list Path)
    (gs : gmap Z bytes) (memory : gmap Z byte) (f : Function)
    (good_path : Path) (others : list Path) (guys : list AST) :
  (1 < length (blocks f))%nat →
  explore memory (func_addr f) = good_path :: others →
  symbolic_guard_guys good_path = Ok guys →
  guys ≠ [] →
  ((∃ st', recover_function explore (gs, memory) f = Ok st') ↔
   ∃ act, act ∈ actions good_path ∧ touches guys act) ∧
  (¬ (∃ act, act ∈ actions good_path ∧ touches guys act) →
   recover_function explore (gs, memory) f = Raise ValueError).
Proof.
  intros Hb Hex Hguys Hne.
  assert (recover_function explore (gs, memory) f =
          start_of_checks guys (actions good_path) ≫= fun start =>
            Ok (record_solutions gs (func_addr f) start (any_str good_path guys),
                neutralize memory start)) as Heq.
  { unfold recover_function, guard_conditions. rewrite decide_False by lia.
    rewrite Hex. cbn [first_item]. rewrite bind_Ok, Hguys, bind_Ok.
    by destruct (start_of_checks guys (actions good_path)). }
  rewrite Heq.
  destruct (start_of_checks_spec guys (actions good_path) Hne)
    as [[Hyes [start ->]]|[Hno ->]].
  - rewrite bind_Ok. split; [|done]. split; [done|]. intros _. by eexists.
  - split; [|done]. split; [by intros [st' H]|done].
Qed.

Lemma recover_function_needs_guard_read_witness :
  ((∃ st', recover_function (ex_explore (ex_path 4100)) (∅, ex_memory) ex_function = Ok st') ↔
   ∃ act, act ∈ actions (ex_path 4100) ∧ touches [BVS "w0"; BVS "w1"] act) ∧
  (¬ (∃ act, act ∈ actions (ex_path 4100) ∧ touches [BVS "w0"; BVS "w1"] act) →
   recover_function (ex_explore (ex_path 4100)) (∅, ex_memory) ex_function
     = Raise ValueError).
Proof.
  apply (recover_function_needs_guard_read (ex_explore (ex_path 4100)) ∅ ex_memory
           ex_function (ex_path 4100) [] [BVS "w0"; BVS "w1"]).
  - vm_compute. lia.
  - reflexivity.
  - vm_compute. reflexivity.
  - discriminate.
Defined.

(** ** Guard recovery: what the loop does to its state *)

Lemma recover_function_step explore gs memory f gs' memory' :
  recover_function explore (gs, memory) f = Ok (gs', memory') →
  (gs' = gs ∧ memory' = memory) ∨
  ((1 < length (blocks f))%nat ∧
   ∃ start sol, gs' = record_solutions gs (func_addr f) start sol ∧
                memory' = neutralize memory start).
Proof.
  unfold recover_function.
  destruct (decide (length (blocks f) ≤ 1)%nat) as [|Hb].
  - intros [= <- <-]. by left.
  - intros H. apply bind_Ok_inv in H as ([[good_path guys] start] & _ & H).
    injection H as <- <-. right. split; [lia|]. by eexists _, _.
Qed.

Lemma recover_guards_invariant explore fs : ∀ gs memory gs' memory',
  recover_guards explore fs (gs, memory) = Ok (gs', memory') →
  (∀ a, is_Some (gs !! a) → is_Some (gs' !! a)) ∧
  (∀ a, gs' !! a ≠ gs !! a →
        ∃ f, f ∈ fs ∧ (1 < length (blocks f))%nat ∧ func_addr f ≤ a) ∧
  (∀ a, memory' !! a = memory !! a ∨ memory' !! a = Some xc3).
Proof.
  induction fs as [|f fs IH]; intros gs memory gs' memory' H.
  - cbn in H. injection H as <- <-. split; [done|]. split; [done|]. by left.
  - cbn [recover_guards] in H. apply bind_Ok_inv in H as ([gs1 mem1] & Hstep & Hrest).
    apply IH in Hrest as (Hdom & Hnew & Hmem).
    apply recover_function_step in Hstep
      as [[-> ->]|(Hb & start & sol & -> & ->)].
    + split; [done|]. split; [|done]. intros a Ha.
      destruct (Hnew a Ha) as (f' & Hin & ?). exists f'.
      split; [apply elem_of_cons; by right|done].
    + split; [|split].
      * intros a Ha. apply Hdom. rewrite record_solutions_lookup.
        by destruct (decide (func_addr f ≤ a < start)).
      * intros a Ha. destruct (decide (func_addr f ≤ a < start)) as [Hin|Hout].
        -- exists f. split; [apply elem_of_cons; by left|]. split; [done|lia].
        -- destruct (Hnew a) as (f' & Hin & ?).
           { rewrite record_solutions_lookup. by rewrite decide_False. }
           exists f'. split; [apply elem_of_cons; by right|done].
      * intros a. destruct (Hmem a) as [-> | ->]; [|by right].
        unfold neutralize. cbn [write_bytes].
        destruct (decide (start = a)) as [->|Hne].
        -- right. apply lookup_insert_eq.
        -- left. by apply lookup_insert_ne.
Qed.

(** X12: over a successful loop on the recovered functions the table of
    guard solutions only grows, an entry that changed belongs to an address
    at or after the entry of a function with more than one block, and each
    byte of the image is either as before or the return opcode [0xc3]. *)
Theorem recover_guards_grows_and_patches
    (explore : gmap Z byte → Z → list Path) (fs : list Function)
    (gs gs' : gmap Z bytes) (memory memory' : gmap Z byte) :
  recover_guards explore fs (gs, memory) = Ok (gs', memory') →
  (∀ a, is_Some (gs !! a) → is_Some (gs' !! a)) ∧
  (∀ a, gs' !! a ≠ gs !! a →
        ∃ f, f ∈ fs ∧ (1 < length (blocks f))%nat ∧ func_addr f ≤ a) ∧
  (∀ a, memory' !! a = memory !! a ∨ memory' !! a = Some xc3).
Proof. apply recover_guards_invariant. Qed.

Lemma recover_guards_grows_and_patches_witness :
  (∀ a, is_Some ((∅ : gmap Z bytes) !! a) → is_Some (ex_state.1 !! a)) ∧
  (∀ a, ex_state.1 !! a ≠ (∅ : gmap Z bytes) !! a →
        ∃ f, f ∈ [ex_trivial_function; ex_function] ∧
             (1 < length (blocks f))%nat ∧ func_addr f ≤ a) ∧
  (∀ a, ex_state.2 !! a = ex_memory !! a ∨ ex_state.2 !! a = Some xc3).
Proof.
  apply (recover_guards_grows_and_patches (ex_explore (ex_path 4100))
           [ex_trivial_function; ex_function] ∅ ex_state.1 ex_memory ex_state.2).
  vm_compute. reflexivity.
Defined.

(** X13: the first function whose loop body raises ends the round with
    that exception: the functions after it, the gadget finder and the chain
    synthesizer have no influence on the result. *)
Theorem recovery_failure_aborts_round
    (explore : gmap Z byte → Z → list Path)
    (fs1 fs2 : list Function) (f : Function) (memory : gmap Z byte)
    (find_gadgets : gmap Z byte → list RopGadget)
    (do_syscall : gmap Z byte → Z → list Z → result RopChain)
    (st1 : gmap Z bytes * gmap Z byte) (e : exn) :
  recover_guards explore fs1 (∅, memory) = Ok st1 →
  recover_function explore st1 f = Raise e →
  get_gadgets explore (fs1 ++ f :: fs2) memory find_gadgets do_syscall = Raise e.
Proof.
  intros H1 Hf. unfold get_gadgets.
  rewrite recover_guards_app, H1, bind_Ok. cbn [recover_guards]. by rewrite Hf.
Qed.

Lemma recovery_failure_aborts_round_witness :
  get_gadgets (ex_explore ex_unguarded_path) ([ex_trivial_function] ++ ex_function :: [ex_function])
      ex_memory (ex_find_gadgets [ex_mov_gadget]) (ex_do_syscall ex_chain)
    = Raise TypeError.
Proof.
  apply (recovery_failure_aborts_round (ex_explore ex_unguarded_path)
           [ex_trivial_function] [ex_function] ex_function ex_memory
           (ex_find_gadgets [ex_mov_gadget]) (ex_do_syscall ex_chain) (∅, ex_memory)).
  - vm_compute. reflexivity.
  - vm_compute. reflexivity.
Defined.

(** ** The round: validation and the errors of the assembly *)

Lemma validate_chains_Ok gs chains :
  validate_chains gs chains = Ok tt ↔
  ∀ chain g, chain ∈ chains → g ∈ _gadgets chain → is_Some (gs !! addr g).
Proof.
  induction chains as [|c chains IH]; cbn [validate_chains].
  - split; [|done]. intros _ chain g H. by apply elem_of_nil in H.
  - destruct (unrecognized gs c) eqn:Hu.
    + apply unrecognized_nil in Hu. rewrite Forall_forall in Hu. rewrite IH. split.
      * intros H chain g [->|Hc]%elem_of_cons Hg; [by apply Hu|by eapply H].
      * intros H chain g Hc Hg. apply (H chain g); [apply elem_of_cons; by right|done].
    + split; [done|]. intros H. exfalso.
      assert (unrecognized gs c = []) as Hnil; [|congruence].
      apply unrecognized_nil, Forall_forall. intros g Hg.
      apply (H c g); [apply elem_of_cons; by left|done].
Qed.

Lemma validate_chains_result gs chains :
  validate_chains gs chains = Ok tt ∨
  validate_chains gs chains = Raise (AssertionError 163).
Proof.
  induction chains as [|c chains IH]; cbn [validate_chains]; [by left|].
  destruct (unrecognized gs c); [done|by right].
Qed.

(** X14: the sanity check passes exactly when every gadget of every chain
    has an entry in the table of guard solutions, and its only failure is
    the assertion of line 163. *)
Theorem validate_chains_passes_iff (gs : gmap Z bytes) (chains : list RopChain) :
  (validate_chains gs chains = Ok tt ↔
   ∀ chain g, chain ∈ chains → g ∈ _gadgets chain → is_Some (gs !! addr g)) ∧
  (validate_chains gs chains = Ok tt ∨
   validate_chains gs chains = Raise (AssertionError 163)).
Proof. split; [apply validate_chains_Ok|apply validate_chains_result]. Qed.

Lemma postprocess_chain_solved_result chain gs :
  Forall (fun g => is_Some (gs !! addr g)) (_gadgets chain) →
  (∃ stitched, postprocess_chain chain gs = Ok stitched) ∨
  postprocess_chain chain gs = Raise (AssertionError 66).
Proof.
  intros Hsol. unfold postprocess_chain.
  destruct (postprocess_loop_solved gs (_gadgets chain)
              (slice_to (payload_str chain) 8, slice_from (payload_str chain) 8) Hsol)
    as [st' ->].
  rewrite bind_Ok. destruct (decide (length st'.2 = 0%nat)); [left; by eexists|by right].
Qed.

Lemma postprocess_chains_validated gs chains :
  validate_chains gs chains = Ok tt →
  (∃ stitched, postprocess_chains gs chains = Ok stitched) ∨
  postprocess_chains gs chains = Raise (AssertionError 66).
Proof.
  rewrite validate_chains_Ok. induction chains as [|c chains IH]; intros H.
  - left. by eexists.
  - cbn [postprocess_chains].
    destruct (postprocess_chain_solved_result c gs) as [[s ->]| ->]; [| |by right].
    { apply Forall_forall. intros g Hg. apply (H c g); [apply elem_of_cons; by left|done]. }
    rewrite bind_Ok. destruct IH as [[rest ->]| ->]; [| |by right].
    { intros chain g Hc Hg. apply (H chain g); [apply elem_of_cons; by right|done]. }
    left. by eexists.
Qed.

(** X15: the exceptions of the round after synthesis.  The assembly raises
    only the assertion of line 163 (validation), the assertion of line 66
    (a payload left over by the stitcher), [StopIteration] (no move gadget),
    a packing error, or a [KeyError] for the address of the selected move
    gadget; once validation has passed, no gadget of a chain can cause a
    [KeyError]. *)
Theorem assemble_errors
    (gs : gmap Z bytes) (chains : list RopChain) (gadgets : list RopGadget) (e : exn) :
  assemble gs chains gadgets = Raise e →
  e = AssertionError 163 ∨ e = AssertionError 66 ∨ e = StopIteration ∨
  e = StructError ∨
  ∃ g, find moves_rax_to_rdx gadgets = Some g ∧ gs !! addr g = None ∧
       e = KeyError (addr g).
Proof.
  unfold assemble. intros H.
  destruct (validate_chains_result gs chains) as [Hv|Hv]; rewrite Hv in H;
    [|left; cbn in H; congruence].
  rewrite bind_Ok in H.
  destruct (postprocess_chains_validated gs chains Hv) as [[stitched Hs]|Hs];
    rewrite Hs in H; [|right; left; cbn in H; congruence].
  rewrite bind_Ok in H. unfold next_mov_gadget in H.
  destruct (find moves_rax_to_rdx gadgets) as [g|] eqn:Hg;
    [|right; right; left; cbn in H; congruence].
  rewrite bind_Ok in H. unfold pack_Q in H.
  destruct (decide (0 ≤ addr g < 2 ^ 64));
    [|right; right; right; left; cbn in H; congruence].
  rewrite bind_Ok in H. unfold getitem in H.
  destruct (gs !! addr g) as [sol|] eqn:Hsol; [done|].
  right; right; right; right. exists g. cbn in H. split; [done|]. split; [done|congruence].
Qed.

Lemma assemble_errors_witness :
  AssertionError 66 = AssertionError 163 ∨ AssertionError 66 = AssertionError 66 ∨
  AssertionError 66 = StopIteration ∨ AssertionError 66 = StructError ∨
  ∃ g, find moves_rax_to_rdx [ex_mov_gadget] = Some g ∧ ex_solutions !! addr g = None ∧
       AssertionError 66 = KeyError (addr g).
Proof.
  apply (assemble_errors ex_solutions [ex_chain; ex_long_chain] [ex_mov_gadget]).
  vm_compute. reflexivity.
Defined.

(** X16: the size of the final payload: the three raw payloads, the guard
    solutions of all gadgets of the three chains, the 8 bytes of the move
    gadget's address and the move gadget's guard solution. *)
Theorem final_payload_length
    (gs : gmap Z bytes) (c_open c_read c_write : RopChain)
    (gadgets : list RopGadget) (final : bytes) :
  assemble gs [c_open; c_read; c_write] gadgets = Ok final →
  ∃ g sol,
    find moves_rax_to_rdx gadgets = Some g ∧ gs !! addr g = Some sol ∧
    length final =
      (length (payload_str c_open) + sum_solutions gs (_gadgets c_open)
       + (length (payload_str c_read) + sum_solutions gs (_gadgets c_read))
       + (8 + length sol)
       + (length (payload_str c_write) + sum_solutions gs (_gadgets c_write)))%nat.
Proof.
  intros H. apply assemble_Ok_iff in H
    as (s1 & s2 & s3 & g & sol & H1 & H2 & H3 & Hg & _ & Hsol & ->).
  apply postprocess_chain_Ok_inv in H1 as [L1 _].
  apply postprocess_chain_Ok_inv in H2 as [L2 _].
  apply postprocess_chain_Ok_inv in H3 as [L3 _].
  exists g, sol. split; [done|]. split; [done|].
  rewrite !length_app, le_bytes_length. lia.
Qed.

Lemma final_payload_length_witness :
  ∃ g sol,
    find moves_rax_to_rdx [ex_pop_gadget; ex_round_mov_gadget] = Some g ∧
    ex_state.1 !! addr g = Some sol ∧
    length (ex_round_stitched ++ ex_round_stitched
            ++ (le_bytes 8 4097 ++ replicate 16 x41) ++ ex_round_stitched) =
      (length (payload_str ex_round_chain) + sum_solutions ex_state.1 (_gadgets ex_round_chain)
       + (length (payload_str ex_round_chain)
          + sum_solutions ex_state.1 (_gadgets ex_round_chain))
       + (8 + length sol)
       + (length (payload_str ex_round_chain)
          + sum_solutions ex_state.1 (_gadgets ex_round_chain)))%nat.
Proof.
  apply (final_payload_length ex_state.1 ex_round_chain ex_round_chain ex_round_chain
           [ex_pop_gadget; ex_round_mov_gadget]).
  vm_compute. reflexivity.
Defined.

(** X17: the move gadget is the first gadget, in the order of discovery,
    whose first recorded register move goes from rax to rdx; a gadget that
    has such a move only at a later position is passed over. *)
Theorem next_mov_gadget_first_match (gadgets : list RopGadget) (g : RopGadget) :
  next_mov_gadget gadgets = Ok g ↔
  ∃ before after,
    gadgets = before ++ g :: after ∧
    (∃ m ms, reg_moves g = m :: ms ∧ from_reg m = "rax"%string ∧ to_reg m = "rdx"%string) ∧
    Forall (fun g' => ∀ m ms, reg_moves g' = m :: ms →
                      ¬ (from_reg m = "rax"%string ∧ to_reg m = "rdx"%string)) before.
Proof.
  rewrite next_mov_gadget_Ok. split.
  - induction gadgets as [|x gadgets IH]; [done|]. cbn [find].
    destruct (moves_rax_to_rdx x) eqn:Hx.
    + intros [= ->]. exists [], gadgets. split; [done|].
      split; [by apply moves_rax_to_rdx_spec|constructor].
    + intros H. destruct (IH H) as (before & after & -> & Hg & Hb).
      exists (x :: before), after. split; [done|]. split; [done|].
      constructor; [|done]. intros m ms Hm Hmove.
      assert (moves_rax_to_rdx x = true) as Ht; [|congruence].
      apply moves_rax_to_rdx_spec. by exists m, ms.
  - intros (before & after & -> & Hg & Hb).
    apply moves_rax_to_rdx_spec in Hg.
    induction Hb as [|x before Hx _ IH]; cbn [app find]; [by rewrite Hg|].
    destruct (moves_rax_to_rdx x) eqn:Ex; [|done].
    apply moves_rax_to_rdx_spec in Ex as (m & ms & Hm & Hmove). by destruct (Hx m ms Hm).
Qed.

(** ** test: reading a round off the stream *)

Lemma read_line_newline line rest :
  Forall (fun c => is_space c = false) line →
  read_line (line ++ x0a :: rest) = Some (line ++ [x0a], rest).
Proof.
  induction 1 as [|c line Hc _ IH]; [done|].
  cbn [app read_line]. rewrite IH.
  destruct (Byte.eqb c x0a) eqn:E; [|done].
  apply byte_eqb_eq in E as ->. done.
Qed.

Lemma read_line_None out : read_line out = None ↔ x0a ∉ out.
Proof.
  induction out as [|c out IH]; cbn [read_line].
  - split; [intros _; apply not_elem_of_nil|done].
  - destruct (Byte.eqb c x0a) eqn:E.
    + apply byte_eqb_eq in E as ->. split; [done|]. intros H. exfalso. apply H.
      apply elem_of_cons. by left.
    + apply byte_eqb_neq in E. rewrite not_elem_of_cons, <- IH.
      destruct (read_line out) as [[line rest]|]; [|by split].
      split; [done|]. by intros [_ ?].
Qed.

Lemma lstrip_no_space s : Forall (fun c => is_space c = false) s → lstrip s = s.
Proof. destruct 1 as [|c s Hc _]; [done|]. cbn. by rewrite Hc. Qed.

Lemma strip_line line :
  Forall (fun c => is_space c = false) line → strip (line ++ [x0a]) = line.
Proof.
  intros H. unfold strip, rstrip.
  assert (lstrip (line ++ [x0a]) = line ++ [x0a] ∨ line = []) as [->| ->].
  { destruct H as [|c line Hc _]; [by right|]. left. cbn. by rewrite Hc. }
  - rewrite rev_app_distr. cbn [rev app lstrip is_space].
    rewrite lstrip_no_space; [apply rev_involutive|].
    apply Forall_forall. intros c Hc. rewrite Forall_forall in H.
    apply H. apply list_elem_of_In. apply in_rev. by apply list_elem_of_In.
  - done.
Qed.

(** X18: a round whose stream starts with ten header bytes and a line of
    bytes that are not whitespace, closed by a newline, hands exactly that
    line to the solver and leaves the bytes after the newline for the status.
    If the solver raises, nothing is written; otherwise the encoded chain
    and a newline are written, and the round passes when the next three
    bytes, stripped, are "OK" and fails the assertion of line 210
    otherwise. *)
Theorem round_reads_frame
    (b64decode : bytes → result bytes) (b64encode : bytes → bytes)
    (the_nops : bytes) (load_functions : bytes → list Function)
    (load_memory : bytes → gmap Z byte)
    (explore : gmap Z byte → Z → list Path)
    (find_gadgets : gmap Z byte → list RopGadget)
    (do_syscall : gmap Z byte → Z → list Z → result RopChain)
    (header line rest : bytes) (written : list bytes) :
  length header = 10%nat →
  Forall (fun c => is_space c = false) line →
  round b64decode b64encode the_nops load_functions load_memory explore
      find_gadgets do_syscall (header ++ line ++ x0a :: rest) written =
    match solve_round b64decode the_nops load_functions load_memory explore
            find_gadgets do_syscall line with
    | Raise e => Stop written e
    | Ok chain =>
        if bytes_eqb (strip (take 3 rest)) [x4f; x4b]
        then Next (drop 3 rest) (written ++ [b64encode chain ++ [x0a]])
        else Stop (written ++ [b64encode chain ++ [x0a]]) (AssertionError 210)
    end.
Proof.
  intros Hh Hline. unfold round.
  rewrite !drop_drop. change (6 + (1 + 3))%nat with 10%nat.
  rewrite drop_app_length' by done.
  rewrite (read_line_newline _ _ Hline), (strip_line _ Hline). done.
Qed.

Lemma round_reads_frame_witness :
  round ex_b64decode ex_b64encode ex_template ex_load_functions ex_load_memory
      (ex_explore (ex_path 4100)) (ex_find_gadgets [ex_pop_gadget; ex_round_mov_gadget])
      (ex_do_syscall ex_round_chain)
      ([x73; x74; x61; x67; x65; x20; x31; x20; x2f; x35] ++ [x41; x42; x3d; x3d]
       ++ x0a :: [x4f; x4b; x0a]) [] =
    match solve_round ex_b64decode ex_template ex_load_functions ex_load_memory
            (ex_explore (ex_path 4100))
            (ex_find_gadgets [ex_pop_gadget; ex_round_mov_gadget])
            (ex_do_syscall ex_round_chain) [x41; x42; x3d; x3d] with
    | Raise e => Stop [] e
    | Ok chain =>
        if bytes_eqb (strip (take 3 [x4f; x4b; x0a])) [x4f; x4b]
        then Next (drop 3 [x4f; x4b; x0a]) ([] ++ [ex_b64encode chain ++ [x0a]])
        else Stop ([] ++ [ex_b64encode chain ++ [x0a]]) (AssertionError 210)
    end.
Proof.
  apply (round_reads_frame ex_b64decode ex_b64encode ex_template ex_load_functions
           ex_load_memory (ex_explore (ex_path 4100))
           (ex_find_gadgets [ex_pop_gadget; ex_round_mov_gadget])
           (ex_do_syscall ex_round_chain)).
  - reflexivity.
  - repeat constructor.
Defined.

(** X19: a round hangs exactly when no newline follows the ten header
    bytes (the stream may have ended: reading then returns the empty string
    for ever), and a round that hangs has written nothing: what was written
    before the round is all that has been written. *)
Theorem round_hangs_without_newline
    (b64decode : bytes → result bytes) (b64encode : bytes → bytes)
    (the_nops : bytes) (load_functions : bytes → list Function)
    (load_memory : bytes → gmap Z byte)
    (explore : gmap Z byte → Z → list Path)
    (find_gadgets : gmap Z byte → list RopGadget)
    (do_syscall : gmap Z byte → Z → list Z → result RopChain)
    (out : bytes) (written : list bytes) :
  (round b64decode b64encode the_nops load_functions load_memory explore
     find_gadgets do_syscall out written = Hang written
   ↔ x0a ∉ drop 10 out) ∧
  (∀ w, round b64decode b64encode the_nops load_functions load_memory explore
          find_gadgets do_syscall out written = Hang w →
        w = written ∧ x0a ∉ drop 10 out).
Proof.
  unfold round. rewrite !drop_drop. change (6 + (1 + 3))%nat with 10%nat.
  pose proof (read_line_None (drop 10 out)) as Hnone.
  destruct (read_line (drop 10 out)) as [[gadgets rest]|].
  - split.
    + split; [|intros H; by apply Hnone in H]. intros H.
      destruct (solve_round _ _ _ _ _ _ _ _) as [chain|e]; [|done].
      by destruct (bytes_eqb _ _).
    + intros w H.
      destruct (solve_round _ _ _ _ _ _ _ _) as [chain|e]; [|done].
      by destruct (bytes_eqb _ _).
  - assert (x0a ∉ drop 10 out) as Hno by (by apply Hnone).
    split; [done|]. intros w H. injection H as <-. by split.
Qed.

Lemma round_written b64decode b64encode the_nops load_functions load_memory explore
    find_gadgets do_syscall out written :
  match round b64decode b64encode the_nops load_functions load_memory explore
          find_gadgets do_syscall out written with
  | Next _ w => ∃ sent, w = written ++ [sent ++ [x0a]]
  | Stop w _ => w = written ∨ ∃ sent, w = written ++ [sent ++ [x0a]]
  | Hang w => w = written
  end.
Proof.
  unfold round. destruct (read_line _) as [[gadgets rest]|]; [|done].
  destruct (solve_round _ _ _ _ _ _ _ _) as [chain|e]; [|by left].
  destruct (bytes_eqb _ _); [by eexists|right; by eexists].
Qed.

Lemma rounds_written b64decode b64encode the_nops load_functions load_memory explore
    find_gadgets do_syscall n : ∀ out written,
  let s := rounds b64decode b64encode the_nops load_functions load_memory explore
             find_gadgets do_syscall n out written in
  ∃ sent, written_of s = written ++ sent ∧ (length sent ≤ n)%nat ∧
          Forall (fun p => ends_with x0a p = true) sent ∧
          (∀ out' w, s = Next out' w → length sent = n).
Proof.
  induction n as [|n IH]; intros out written; cbn zeta.
  - exists []. cbn [written_of]. rewrite app_nil_r.
    split; [done|]. split; [cbn; lia|]. split; [constructor|done].
  - cbn [rounds].
    pose proof (round_written b64decode b64encode the_nops load_functions load_memory
                  explore find_gadgets do_syscall out written) as Hr.
    destruct (round _ _ _ _ _ _ _ _ out written) as [out1 w1|w1 e|w1].
    + destruct Hr as [p ->].
      destruct (IH out1 (written ++ [p ++ [x0a]])) as (sent & Hw & Hlen & Hnl & Hn).
      exists ((p ++ [x0a]) :: sent). rewrite Hw, <- app_assoc.
      split; [done|]. split; [cbn; lia|]. split.
      * constructor; [apply ends_with_snoc|done].
      * intros out' w Hs. cbn. f_equal. by eapply Hn.
    + destruct Hr as [->|[p ->]].
      * exists []. cbn [written_of]. rewrite app_nil_r.
    split; [done|]. split; [cbn; lia|]. split; [constructor|done].
      * exists [p ++ [x0a]]. cbn [written_of].
        split; [done|]. split; [cbn; lia|]. split; [|done].
        constructor; [apply ends_with_snoc|constructor].
    + subst w1. exists []. cbn [written_of]. rewrite app_nil_r.
    split; [done|]. split; [cbn; lia|]. split; [constructor|done].
Qed.

(** X20: a run writes at most five payloads to the process, each closed by
    a newline, and a run that returns has written exactly five. *)
Theorem test_writes_five_payloads
    (b64decode : bytes → result bytes) (b64encode : bytes → bytes)
    (the_nops : bytes) (load_functions : bytes → list Function)
    (load_memory : bytes → gmap Z byte)
    (explore : gmap Z byte → Z → list Path)
    (find_gadgets : gmap Z byte → list RopGadget)
    (do_syscall : gmap Z byte → Z → list Z → result RopChain)
    (out : bytes) :
  let s := test b64decode b64encode the_nops load_functions load_memory explore
             find_gadgets do_syscall out in
  (length (written_of s) ≤ 5)%nat ∧
  Forall (fun p => ends_with x0a p = true) (written_of s) ∧
  (∀ out' w, s = Next out' w → length w = 5%nat).
Proof.
  cbn zeta. unfold test.
  destruct (rounds_written b64decode b64encode the_nops load_functions load_memory
              explore find_gadgets do_syscall 5 out [])
    as (sent & Hw & Hlen & Hnl & Hn).
  cbn zeta in *. cbn [app] in Hw.
  destruct (rounds _ _ _ _ _ _ _ _ 5 out []) as [out1 w1|w1 e|w1]; cbn [written_of] in *.
  - subst w1. specialize (Hn out1 sent eq_refl).
    destruct (bytes_eqb _ _); cbn [written_of].
    + split; [lia|]. split; [done|]. by intros out' w [= _ <-].
    + split; [lia|]. by split.
  - subst w1. cbn. split; [done|]. by split.
  - subst w1. cbn. split; [done|]. by split.
Qed.
